(** * kafka-pixy [admin] package: a shallow embedding of [admin/admin.go]

    The four public operations of [admin.T] ([GetGroupOffsets],
    [SetGroupOffsets], [GetTopicConsumers], [GetAllTopicConsumers]) are
    embedded as Rocq functions over explicit models of their collaborators
    (the sarama cluster client, brokers, the group coordinator and the
    ZooKeeper connection).  Go maps are [gmap]s, slices are lists, a Go
    [(value, error)] pair is a pair of options, and the two sources of
    nondeterminism of the Go runtime that the code is exposed to (the
    iteration order of [range] over a map, and the interleaving of the
    goroutines spawned per broker) are explicit arguments. *)

From stdpp Require Import gmap strings list fin_maps sorting.
From Stdlib Require Import ZArith Lia Ascii.

Local Open Scope string_scope.
Local Open Scope Z_scope.

(** ** Go values *)

Module Go.

(** Conversion of an [int] to [int32]: the low 32 bits, read as a signed
    number. *)
Definition int32 (z : Z) : Z := (z + 2 ^ 31) `mod` 2 ^ 32 - 2 ^ 31.

(** Size of [int] on the platforms the proxy is built for. *)
Definition intSize : Z := 64.

(** Arguments of a format string, kept next to the format instead of being
    rendered into it. *)
Inductive arg :=
| AInt (z : Z)
| AStr (s : string).

(** Non-nil values of interface type [error], one constructor per dynamic
    type that reaches this package:
    - [fundamental]: [*errors.fundamental] of github.com/pkg/errors,
      built by [errors.New] and [errors.Errorf];
    - [withStack]: [*errors.withStack] around a [*errors.withMessage],
      built by [errors.Wrap] and [errors.Wrapf];
    - [KError]: [sarama.KError], a broker side error code;
    - [errorString]: [*errors.errorString] of the Go library, the type of
      the package level errors of [zk] and of transport errors;
    - [NumError]: [*strconv.NumError]. *)
Inductive error :=
| fundamental (format : string) (args : list arg)
| withStack (cause : error) (format : string) (args : list arg)
| KError (code : Z)
| errorString (msg : string)
| NumError (func num : string) (err : error).

(** An interface value of type [error]: [None] is [nil]. *)
Definition err := option error.

#[global] Instance arg_eq_dec : EqDecision arg.
Proof. solve_decision. Defined.

#[global] Instance error_eq_dec : EqDecision error.
Proof.
  intros x. induction x as [f a|c IH f a|c|m|f n e IH]; intros [f' a'|c' f' a'|c'|m'|f' n' e'];
    try (right; discriminate).
  - destruct (decide (f = f')) as [->|]; [|right; congruence].
    destruct (decide (a = a')) as [->|]; [left; reflexivity|right; congruence].
  - destruct (IH c') as [->|]; [|right; congruence].
    destruct (decide (f = f')) as [->|]; [|right; congruence].
    destruct (decide (a = a')) as [->|]; [left; reflexivity|right; congruence].
  - destruct (decide (c = c')) as [->|]; [left; reflexivity|right; congruence].
  - destruct (decide (m = m')) as [->|]; [left; reflexivity|right; congruence].
  - destruct (IH e') as [->|]; [|right; congruence].
    destruct (decide (f = f')) as [->|]; [|right; congruence].
    destruct (decide (n = n')) as [->|]; [left; reflexivity|right; congruence].
Defined.

(** *** Dynamic types, method sets and type assertions *)

Inductive dyntype :=
| T_fundamental | T_withStack | T_KError | T_errorString | T_NumError.

Definition typeOf (e : error) : dyntype :=
  match e with
  | fundamental _ _ => T_fundamental
  | withStack _ _ _ => T_withStack
  | KError _ => T_KError
  | errorString _ => T_errorString
  | NumError _ _ _ => T_NumError
  end.

(** The names of the methods each dynamic type declares. *)
Definition methodSet (t : dyntype) : list string :=
  match t with
  | T_fundamental => ["Error"; "Format"]
  | T_withStack => ["Error"; "Cause"; "Format"]
  | T_KError => ["Error"]
  | T_errorString => ["Error"]
  | T_NumError => ["Error"]
  end.

(** An interface type is the list of the methods it asks for. *)
Definition iface := list string.

(** The predeclared interface [error]. *)
Definition error_iface : iface := ["Error"].

Definition implements (t : dyntype) (i : iface) : bool :=
  forallb (λ m, bool_decide (m ∈ methodSet t)) i.

(** [_, ok := e.(I)] for an interface type [I]: it holds when [e] is not
    nil and its dynamic type implements [I]. *)
Definition assertIface (e : err) (i : iface) : bool :=
  match e with
  | None => false
  | Some v => implements (typeOf v) i
  end.

(** *** github.com/pkg/errors *)

Definition errors_New (msg : string) : err := Some (fundamental msg []).

Definition Errorf (format : string) (args : list arg) : err :=
  Some (fundamental format args).

(** [errors.Wrapf(err, format, args...)]: "If err is nil, Wrapf returns
    nil." *)
Definition Wrapf (e : err) (format : string) (args : list arg) : err :=
  match e with
  | None => None
  | Some c => Some (withStack c format args)
  end.

Definition Wrap (e : err) (msg : string) : err := Wrapf e msg [].

(** The outcome of a call of a collaborator that returns [(value, error)]:
    [fail e] when the error is not nil. *)
Inductive res (A : Type) :=
| ok (a : A)
| fail (e : error).
Arguments ok {A} a.
Arguments fail {A} e.

(** *** strconv.Atoi *)

Definition ErrSyntax : error := errorString "invalid syntax".
Definition ErrRange : error := errorString "value out of range".

Definition digit (c : ascii) : option Z :=
  let n := Z.of_N (N_of_ascii c) in
  if bool_decide (48 ≤ n ≤ 57) then Some (n - 48) else None.

(** The outcome of the scan of the digits, left to right: the number they
    spell, or what stopped the scan, a byte that is no digit or a number
    that no longer fits [intSize] bits. *)
Inductive scanned :=
| Spelled (n : Z)
| NoDigit
| TooLarge.

Fixpoint digits (s : string) (acc : Z) : scanned :=
  match s with
  | EmptyString => Spelled acc
  | String c s' =>
      match digit c with
      | Some d =>
          if bool_decide (acc * 10 + d < 2 ^ intSize)
          then digits s' (acc * 10 + d)
          else TooLarge
      | None => NoDigit
      end
  end.

(** [strconv.Atoi(s)]: an optional sign followed by one or more decimal
    digits, whose value fits an [int]. *)
Definition Atoi (s : string) : res Z :=
  let syntaxError := fail (NumError "Atoi" s ErrSyntax) in
  let rangeError := fail (NumError "Atoi" s ErrRange) in
  let '(neg, body) :=
    match s with
    | String "+" s' => (false, s')
    | String "-" s' => (true, s')
    | _ => (false, s)
    end in
  match body with
  | EmptyString => syntaxError
  | _ =>
      match digits body 0 with
      | NoDigit => syntaxError
      | TooLarge => rangeError
      | Spelled n =>
          let v := if neg : bool then - n else n in
          if bool_decide (- 2 ^ (intSize - 1) ≤ v < 2 ^ (intSize - 1))
          then ok v
          else rangeError
      end
  end.

(** *** sort.Sort on an [int32Slice]

    [Less] is [<] on integers, a strict total order, so the sorted
    arrangement of a slice is unique ([sort_int32_unique] below) and any
    sorting algorithm stands for the library's. *)
Definition sort_int32 (l : list Z) : list Z := merge_sort Z.le l.

(** *** [range] over a map

    The runtime yields the entries of a map in an order of its choosing.
    The choice is the argument [seed]: each number picks (modulo their count)
    the next entry among those not yet yielded. *)
Fixpoint shuffle {A} (fuel : nat) (seed : list nat) (l : list A) : list A :=
  match fuel with
  | O => []
  | S fuel' =>
      let i := (hd O seed `mod` length l)%nat in
      match l !! i with
      | Some x => x :: shuffle fuel' (tl seed) (delete i l)
      | None => []
      end
  end.

Definition range {K} `{Countable K} {V} (seed : list nat) (m : gmap K V)
  : list (K * V) :=
  let l := map_to_list m in shuffle (length l) seed l.

End Go.

Export Go.

(** ** The parts of github.com/Shopify/sarama the package uses *)

Module Sarama.

Definition ErrNoError : Z := 0.
Definition OffsetNewest : Z := -1.
Definition OffsetOldest : Z := -2.
Definition ReceiveTime : Z := -1.
Definition GroupGenerationUndefined : Z := -1.

(** A [*sarama.Broker]: brokers are compared, and used as map keys, by
    the identity of the pointer. *)
Definition Broker := nat.

Module OffsetRequest.
Record block := { time : Z; maxOffsets : Z }.
Record t := { blocks : gmap string (gmap Z block) }.
(** [var req sarama.OffsetRequest] *)
Definition zero : t := {| blocks := ∅ |}.
Definition AddBlock (r : t) (topic : string) (partitionID time maxOffsets : Z) : t :=
  {| blocks :=
       <[topic := <[partitionID := {| time := time; maxOffsets := maxOffsets |}]>
                    (default ∅ (blocks r !! topic))]> (blocks r) |}.
End OffsetRequest.

Module OffsetResponse.
Record Block := { Err : Z; Offsets : list Z }.
Record t := { Blocks : gmap string (gmap Z Block) }.
Definition GetBlock (r : t) (topic : string) (partition : Z) : option Block :=
  Blocks r !! topic ≫= λ ps, ps !! partition.
End OffsetResponse.

Module OffsetFetchRequest.
Record t := {
  ConsumerGroup : string;
  Version : Z;
  partitions : gmap string (list Z) }.
Definition AddPartition (r : t) (topic : string) (partitionID : Z) : t :=
  {| ConsumerGroup := ConsumerGroup r;
     Version := Version r;
     partitions :=
       <[topic := (default [] (partitions r !! topic) ++ [partitionID])%list]>
         (partitions r) |}.
End OffsetFetchRequest.

Module OffsetFetchResponse.
Record Block := { Offset : Z; Metadata : string; Err : Z }.
Record t := { Blocks : gmap string (gmap Z Block) }.
Definition GetBlock (r : t) (topic : string) (partition : Z) : option Block :=
  Blocks r !! topic ≫= λ ps, ps !! partition.
End OffsetFetchResponse.

Module OffsetCommitRequest.
Record block := { offset : Z; timestamp : Z; metadata : string }.
Record t := {
  ConsumerGroup : string;
  ConsumerGroupGeneration : Z;
  Version : Z;
  blocks : gmap string (gmap Z block) }.
Definition AddBlock (r : t) (topic : string) (partitionID offset timestamp : Z)
    (metadata : string) : t :=
  {| ConsumerGroup := ConsumerGroup r;
     ConsumerGroupGeneration := ConsumerGroupGeneration r;
     Version := Version r;
     blocks :=
       <[topic := <[partitionID := {| offset := offset; timestamp := timestamp;
                                      metadata := metadata |}]>
                    (default ∅ (blocks r !! topic))]> (blocks r) |}.
End OffsetCommitRequest.

Module OffsetCommitResponse.
Record t := { Errors : gmap string (gmap Z Z) }.
End OffsetCommitResponse.

(** The interface [sarama.Client], as far as the package calls it. *)
Record Client := {
  Partitions : string → res (list Z);
  Leader : string → Z → res Broker;
  Coordinator : string → res Broker }.

End Sarama.

(** ** The parts of github.com/samuel/go-zookeeper/zk the package uses *)

Module ZK.

Definition ErrNoNode : error := errorString "zk: node does not exist".

(** A [*zk.Conn]: [Children] and [Get] without the [Stat] they also
    return, which the package drops. *)
Record Conn := {
  Children : string → res (list string);
  Get : string → res string }.

End ZK.

(** ** Package [admin] *)

Module Admin.
Import Sarama.

Definition ProtocolVer1 : Z := 1.

(** [type ErrInvalidParam error]: a defined type whose underlying type is
    the interface [error], hence an interface type with the method set of
    [error]. *)
Definition ErrInvalidParam : iface := error_iface.

(** The conversion [ErrInvalidParam(e)] of an interface value to that
    interface type: the value keeps its dynamic type. *)
Definition to_ErrInvalidParam (e : err) : err := e.

(** What the package reads of [config.Proxy]. *)
Record Proxy := {
  Kafka_SeedPeers : list string;
  ZooKeeper_SeedPeers : list string;
  ZooKeeper_Chroot : string }.

(** The collaborators behind the connections: what dialing yields and how
    brokers answer.  [S] is the state of the group coordinator, which
    [CommitOffset] alone changes. *)
Record World (S : Type) := {
  NewClient : list string → res Client;
  Connect : list string → res ZK.Conn;
  ID : Broker → Z;
  GetAvailableOffsets : Broker → OffsetRequest.t → res OffsetResponse.t;
  FetchOffset : Broker → S → OffsetFetchRequest.t → res OffsetFetchResponse.t;
  CommitOffset : Broker → S → OffsetCommitRequest.t → S * res OffsetCommitResponse.t }.
Arguments NewClient {S} _ _.
Arguments Connect {S} _ _.
Arguments ID {S} _ _.
Arguments GetAvailableOffsets {S} _ _ _.
Arguments FetchOffset {S} _ _ _ _.
Arguments CommitOffset {S} _ _ _ _.

(** [admin.T]; [mtx] makes the two lazy accessors atomic, which is how
    they are modelled. *)
Record T := {
  cfg : Proxy;
  kafkaClt : option Client;
  zkConn : option ZK.Conn }.

Definition Spawn (cfg : Proxy) : T :=
  {| cfg := cfg; kafkaClt := None; zkConn := None |}.

Record PartitionOffset := {
  Partition : Z;
  Begin : Z;
  End_ : Z;
  Offset : Z;
  Metadata : string }.

(** The zero value, with which [make] fills a slice. *)
Definition zeroPartitionOffset : PartitionOffset :=
  {| Partition := 0; Begin := 0; End_ := 0; Offset := 0; Metadata := "" |}.

Record indexedPartition := {
  index : nat;
  partition : Z }.

(** *** The shared memory of the offset fetchers

    A goroutine spawned by [GetGroupOffsets] touches shared memory in two
    ways: it stores into a field of an element of [offsets], and it sends
    on [errorsCh].  Its run is the list of these actions; the calls to
    its broker are answered by the [World]. *)
Inductive field := FPartition | FBegin | FEnd.

#[global] Instance field_eq_dec : EqDecision field.
Proof. solve_decision. Defined.

Inductive action :=
| Store (i : nat) (f : field) (v : Z)
| Send (e : err).

Record fanout := {
  offsets : list PartitionOffset;
  errorsCh : list err }.

Definition setField (f : field) (v : Z) (po : PartitionOffset) : PartitionOffset :=
  match f with
  | FPartition =>
      {| Partition := v; Begin := Begin po; End_ := End_ po;
         Offset := Offset po; Metadata := Metadata po |}
  | FBegin =>
      {| Partition := Partition po; Begin := v; End_ := End_ po;
         Offset := Offset po; Metadata := Metadata po |}
  | FEnd =>
      {| Partition := Partition po; Begin := Begin po; End_ := v;
         Offset := Offset po; Metadata := Metadata po |}
  end.

(** One action on the shared memory.  Every index a fetcher stores at is
    below the length of [offsets] ([distribute_index_lt] below), so the
    bounds check of the store never fires.  The channel has room for one
    error per fetcher and a fetcher sends at most one, so a send never
    blocks. *)
Definition exec (x : action) (s : fanout) : fanout :=
  match x with
  | Store i f v => {| offsets := alter (setField f v) i (offsets s); errorsCh := errorsCh s |}
  | Send e => {| offsets := offsets s; errorsCh := (errorsCh s ++ [e])%list |}
  end.

(** The scheduler: each number of [sched] names the goroutine that
    performs its next action (a number that names no goroutine with an
    action left is skipped). *)
Fixpoint run (sched : list nat) (tasks : list (list action)) (s : fanout)
  : fanout * list (list action) :=
  match sched with
  | [] => (s, tasks)
  | k :: sched' =>
      match tasks !! k with
      | Some (x :: rest) => run sched' (<[k := rest]> tasks) (exec x s)
      | _ => run sched' tasks s
      end
  end.

(** [wg.Wait()] returns when every goroutine has finished: what [sched]
    left over still runs. *)
Definition finish (tasks : list (list action)) (s : fanout) : fanout :=
  foldl (λ s task, foldl (λ s x, exec x s) s task) s tasks.

Definition Wait (sched : list nat) (tasks : list (list action)) (s : fanout) : fanout :=
  let '(s', rest) := run sched tasks s in finish rest s'.

Definition getOffsetResult (res : OffsetResponse.t) (topic : string) (partition : Z)
  : Go.res Z :=
  match OffsetResponse.GetBlock res topic partition with
  | None => fail (fundamental "%s/%d, no data" [AStr topic; AInt partition])
  | Some block =>
      if bool_decide (OffsetResponse.Err block ≠ ErrNoError)
      then fail (withStack (KError (OffsetResponse.Err block))
                   "%s/%d, fetch error" [AStr topic; AInt partition])
      else
        match OffsetResponse.Offsets block with
        | [] => fail (fundamental "%s/%d, no offset" [AStr topic; AInt partition])
        | o :: _ => ok o
        end
  end.

Section WithWorld.
Context {S : Type} (w : World S).

(** The two lazy accessors wrap an error that is not nil, so what they
    return as an error is not nil either. *)
Definition lazyKafkaClt (a : T) : T * res Client :=
  match kafkaClt a with
  | Some c => (a, ok c)
  | None =>
      match NewClient w (Kafka_SeedPeers (cfg a)) with
      | ok c => ({| cfg := cfg a; kafkaClt := Some c; zkConn := zkConn a |}, ok c)
      | fail e => (a, fail (withStack e "failed to create sarama.Client" []))
      end
  end.

Definition lazyZKConn (a : T) : T * res ZK.Conn :=
  match zkConn a with
  | Some c => (a, ok c)
  | None =>
      match Connect w (ZooKeeper_SeedPeers (cfg a)) with
      | ok c => ({| cfg := cfg a; kafkaClt := kafkaClt a; zkConn := Some c |}, ok c)
      | fail e => (a, fail (withStack e "failed to create zk.Conn" []))
      end
  end.

(** **** GetGroupOffsets *)

(** What [GetGroupOffsets] returns. *)
Definition offsetsResult : Type := option (list PartitionOffset) * err.

(** The loop that figures out the distribution of partitions among
    brokers, from index [i] on; [inr] is a [return] out of it. *)
Fixpoint distribute (kafkaClt : Client) (topic : string) (i : nat) (partitions : list Z)
    (brokerToPartitions : gmap Broker (list indexedPartition))
  : gmap Broker (list indexedPartition) + offsetsResult :=
  match partitions with
  | [] => inl brokerToPartitions
  | p :: partitions' =>
      match Leader kafkaClt topic p with
      | fail e =>
          inr (None, Wrapf (Some e) "failed to get partition leader, partition=%d" [AInt p])
      | ok broker =>
          distribute kafkaClt topic (Datatypes.S i) partitions'
            (<[broker := (default [] (brokerToPartitions !! broker)
                           ++ [{| index := i; partition := p |}])%list]>
               brokerToPartitions)
      end
  end.

Definition offsetRequest (topic : string) (time : Z)
    (brokerPartitions : list indexedPartition) : OffsetRequest.t :=
  foldl (λ req p, OffsetRequest.AddBlock req topic (partition p) time 1)
    OffsetRequest.zero brokerPartitions.

(** The loop of a fetcher over the partitions of its broker. *)
Fixpoint fetchRanges (broker : Broker) (topic : string)
    (resOldest resNewest : OffsetResponse.t)
    (brokerPartitions : list indexedPartition) : list action :=
  match brokerPartitions with
  | [] => []
  | xp :: rest =>
      match getOffsetResult resOldest topic (partition xp) with
      | fail e =>
          [Send (Wrapf (Some e) "failed to fetch oldest offset, broker=%v" [AInt (ID w broker)])]
      | ok begin =>
          match getOffsetResult resNewest topic (partition xp) with
          | fail e =>
              [Send (Wrapf (Some e) "failed to fetch newest offset, broker=%v"
                       [AInt (ID w broker)])]
          | ok end_ =>
              Store (index xp) FPartition (partition xp)
              :: Store (index xp) FBegin begin
              :: Store (index xp) FEnd end_
              :: fetchRanges broker topic resOldest resNewest rest
          end
      end
  end.

(** The goroutine [adminOffsetFetcher] spawned for one broker. *)
Definition offsetFetcher (topic : string) (broker : Broker)
    (brokerPartitions : list indexedPartition)
    (reqOldest reqNewest : OffsetRequest.t) : list action :=
  match GetAvailableOffsets w broker reqOldest with
  | fail e =>
      [Send (Wrapf (Some e) "failed to fetch oldest offset, broker=%v" [AInt (ID w broker)])]
  | ok resOldest =>
      match GetAvailableOffsets w broker reqNewest with
      | fail e =>
          [Send (Wrapf (Some e) "failed to fetch newest offset, broker=%v"
                   [AInt (ID w broker)])]
      | ok resNewest => fetchRanges broker topic resOldest resNewest brokerPartitions
      end
  end.

(** The goroutines, in the order the [range] over [brokerToPartitions]
    spawns them. *)
Definition spawnFetchers (seed : list nat) (topic : string)
    (brokerToPartitions : gmap Broker (list indexedPartition)) : list (list action) :=
  (λ '(broker, brokerPartitions),
     offsetFetcher topic broker brokerPartitions
       (offsetRequest topic OffsetOldest brokerPartitions)
       (offsetRequest topic OffsetNewest brokerPartitions))
    <$> range seed brokerToPartitions.

Definition setCommitted (block : OffsetFetchResponse.Block) (po : PartitionOffset)
  : PartitionOffset :=
  {| Partition := Partition po; Begin := Begin po; End_ := End_ po;
     Offset := OffsetFetchResponse.Offset block;
     Metadata := OffsetFetchResponse.Metadata block |}.

(** The loop that copies the committed offsets, from index [i] on. *)
Fixpoint fillCommitted (res : OffsetFetchResponse.t) (topic : string) (i : nat)
    (partitions : list Z) (offsets : list PartitionOffset)
  : list PartitionOffset + offsetsResult :=
  match partitions with
  | [] => inl offsets
  | p :: partitions' =>
      match OffsetFetchResponse.GetBlock res topic p with
      | None => inr (None, Wrapf None "offset block is missing, partition=%d" [AInt p])
      | Some block =>
          fillCommitted res topic (Datatypes.S i) partitions'
            (alter (setCommitted block) i offsets)
      end
  end.

Definition offsetFetchRequest (group topic : string) (partitions : list Z)
  : OffsetFetchRequest.t :=
  foldl (λ req p, OffsetFetchRequest.AddPartition req topic p)
    {| OffsetFetchRequest.ConsumerGroup := group;
       OffsetFetchRequest.Version := ProtocolVer1;
       OffsetFetchRequest.partitions := ∅ |}
    partitions.

(** [seed] is the order of the [range] over [brokerToPartitions],
    [sched] the interleaving of the fetchers, [st] the state of the
    coordinator. *)
Definition GetGroupOffsets (seed sched : list nat) (st : S) (a : T) (group topic : string)
  : T * offsetsResult :=
  match lazyKafkaClt a with
  | (a, fail e) => (a, (None, Some e))
  | (a, ok kafkaClt) =>
    (a,
     match Partitions kafkaClt topic with
     | fail e => (None, Wrap (Some e) "failed to get topic partitions")
     | ok partitions =>
       match distribute kafkaClt topic 0 partitions ∅ with
       | inr r => r
       | inl brokerToPartitions =>
         let offsets := replicate (length partitions) zeroPartitionOffset in
         let s := Wait sched (spawnFetchers seed topic brokerToPartitions)
                    {| offsets := offsets; errorsCh := [] |} in
         match errorsCh s with
         | e :: _ => (None, e)
         | [] =>
           match Coordinator kafkaClt group with
           | fail e => (None, Wrapf (Some e) "failed to get coordinator" [])
           | ok coordinator =>
             match FetchOffset w coordinator st
                     (offsetFetchRequest group topic partitions) with
             | fail e => (None, Wrapf (Some e) "failed to fetch offsets" [])
             | ok res =>
               match fillCommitted res topic 0 partitions (Admin.offsets s) with
               | inr r => r
               | inl offsets => (Some offsets, None)
               end
             end
           end
         end
       end
     end)
  end.

(** **** SetGroupOffsets *)

Definition offsetCommitRequest (group topic : string) (offsets : list PartitionOffset)
  : OffsetCommitRequest.t :=
  foldl (λ req po,
           OffsetCommitRequest.AddBlock req topic (Partition po) (Offset po) ReceiveTime
             (Metadata po))
    {| OffsetCommitRequest.Version := ProtocolVer1;
       OffsetCommitRequest.ConsumerGroup := group;
       OffsetCommitRequest.ConsumerGroupGeneration := GroupGenerationUndefined;
       OffsetCommitRequest.blocks := ∅ |}
    offsets.

(** The loop over [res.Errors[topic]], given the entries in the order
    the [range] yields them; [Some r] is a [return] of [r] out of it. *)
Fixpoint checkErrors (entries : list (Z * Z)) : option err :=
  match entries with
  | [] => None
  | (p, code) :: entries' =>
      if bool_decide (code ≠ ErrNoError)
      then Some (Wrapf (Some (KError code)) "failed to commit offset, partition=%d" [AInt p])
      else checkErrors entries'
  end.

(** [seed] is the order of the [range] over [res.Errors[topic]]. *)
Definition SetGroupOffsets (seed : list nat) (st : S) (a : T) (group topic : string)
    (offsets : list PartitionOffset) : T * S * err :=
  match lazyKafkaClt a with
  | (a, fail e) => (a, st, Some e)
  | (a, ok kafkaClt) =>
    match Coordinator kafkaClt group with
    | fail e => (a, st, Wrapf (Some e) "failed to get coordinator" [])
    | ok coordinator =>
      match CommitOffset w coordinator st (offsetCommitRequest group topic offsets) with
      | (st, fail e) => (a, st, Wrapf (Some e) "failed to commit offsets" [])
      | (st, ok res) =>
        match checkErrors
                (range seed (default ∅ (OffsetCommitResponse.Errors res !! topic))) with
        | Some r => (a, st, r)
        | None => (a, st, None)
        end
      end
    end
  end.

(** **** GetTopicConsumers *)

(** What [GetTopicConsumers] returns. *)
Definition consumersResult : Type := option (gmap string (list Z)) * err.

(** The loop over the partition nodes. *)
Fixpoint owners (zkConn : ZK.Conn) (consumedPartitionsPath : string)
    (partitionNodes : list string) (consumers : gmap string (list Z))
  : gmap string (list Z) + consumersResult :=
  match partitionNodes with
  | [] => inl consumers
  | partitionNode :: partitionNodes' =>
      match Atoi partitionNode with
      | fail e => inr (None, Wrapf (Some e) "invalid partition id, %s" [AStr partitionNode])
      | ok partition =>
          let partitionPath := consumedPartitionsPath ++ "/" ++ partitionNode in
          match ZK.Get zkConn partitionPath with
          | fail e => inr (None, Wrapf (Some e) "failed to fetch partition owner" [])
          | ok partitionNodeData =>
              let clientID := partitionNodeData in
              owners zkConn consumedPartitionsPath partitionNodes'
                (<[clientID := (default [] (consumers !! clientID)
                                 ++ [int32 partition])%list]> consumers)
          end
      end
  end.

Definition GetTopicConsumers (a : T) (group topic : string) : T * consumersResult :=
  match lazyZKConn a with
  | (a, fail e) => (a, (None, Some e))
  | (a, ok zkConn) =>
    (a,
     let consumedPartitionsPath :=
       ZooKeeper_Chroot (cfg a) ++ "/consumers/" ++ group ++ "/owners/" ++ topic in
     match ZK.Children zkConn consumedPartitionsPath with
     | fail e =>
         if bool_decide (e = ZK.ErrNoNode)
         then (None, to_ErrInvalidParam (errors_New "either group or topic is incorrect"))
         else (None, Wrapf (Some e) "failed to fetch partition owners data" [])
     | ok partitionNodes =>
         match owners zkConn consumedPartitionsPath partitionNodes ∅ with
         | inr r => r
         | inl consumers => (Some (sort_int32 <$> consumers), None)
         end
     end)
  end.

(** **** GetAllTopicConsumers *)

(** What [GetAllTopicConsumers] returns. *)
Definition allConsumersResult : Type :=
  option (gmap string (gmap string (list Z))) * err.

(** [len(m)] of a map that may be nil. *)
Definition len {K} `{Countable K} {V} (m : option (gmap K V)) : nat :=
  match m with
  | None => 0%nat
  | Some m => size m
  end.

(** The loop over the groups. *)
Fixpoint scanGroups (a : T) (topic : string) (groups : list string)
    (consumers : gmap string (gmap string (list Z)))
  : T * (gmap string (gmap string (list Z)) + allConsumersResult) :=
  match groups with
  | [] => (a, inl consumers)
  | group :: groups' =>
      let '(a, (groupConsumers, err)) := GetTopicConsumers a group topic in
      match err with
      | Some _ =>
          if assertIface err ErrInvalidParam
          then scanGroups a topic groups' consumers
          else (a, inr (None, Wrapf err "failed to fetch group `%s` data" [AStr group]))
      | None =>
          scanGroups a topic groups'
            (if bool_decide (0 < len groupConsumers)%nat
             then <[group := default ∅ groupConsumers]> consumers
             else consumers)
      end
  end.

Definition GetAllTopicConsumers (a : T) (topic : string) : T * allConsumersResult :=
  match lazyZKConn a with
  | (a, fail e) => (a, (None, Some e))
  | (a, ok kzConn) =>
    let groupsPath := ZooKeeper_Chroot (cfg a) ++ "/consumers" in
    match ZK.Children kzConn groupsPath with
    | fail e => (a, (None, Wrapf (Some e) "failed to fetch consumer groups" []))
    | ok groups =>
      match scanGroups a topic groups ∅ with
      | (a, inr r) => (a, r)
      | (a, inl consumers) => (a, (Some consumers, None))
      end
    end
  end.

End WithWorld.

(** **** Stop *)

(** The calls of [Close] that [Stop] makes. *)
Inductive closing := CloseKafkaClt | CloseZkConn.

(** [Stop] closes the connections that are not nil, the cluster client
    first; it assigns no field of its receiver. *)
Definition Stop (a : T) : list closing :=
  (match kafkaClt a with Some _ => [CloseKafkaClt] | None => [] end
   ++ match zkConn a with Some _ => [CloseZkConn] | None => [] end)%list.

(** **** int32Slice

    The three methods of [sort.Interface]; [None] is the panic of an index
    out of range. *)
Definition Len (p : list Z) : nat := length p.

Definition Less (p : list Z) (i j : nat) : option bool :=
  match p !! i, p !! j with
  | Some pi, Some pj => Some (bool_decide (pi < pj))
  | _, _ => None
  end.

Definition Swap (p : list Z) (i j : nat) : option (list Z) :=
  match p !! i, p !! j with
  | Some pi, Some pj => Some (<[j := pi]> (<[i := pj]> p))
  | _, _ => None
  end.

End Admin.

(** ** A concrete cluster

    Topic [orders] has partitions 0, 1, 2; broker 1 leads 0 and 2, broker 2
    leads 1; broker 3 coordinates every group and keeps the log of the
    commit requests.  The tree store holds the ownership nodes of group
    [g1]. *)

Module Scenario.
Import Sarama Admin.

Definition store : Type := list OffsetCommitRequest.t.

Definition client : Client :=
  {| Partitions := λ topic,
       if bool_decide (topic = "orders") then ok [0; 1; 2]
       else fail (KError 3);
     Leader := λ _ p, ok (if bool_decide (p = 1) then 2%nat else 1%nat);
     Coordinator := λ _, ok 3%nat |}.

(** The logs span 100..150, 20..40 and 300..350. *)
Definition answer (time : Z) (p : Z) : OffsetResponse.Block :=
  {| OffsetResponse.Err := ErrNoError;
     OffsetResponse.Offsets :=
       [if bool_decide (time = OffsetOldest)
        then (if bool_decide (p = 1) then 20 else 100 * p + 100)
        else (if bool_decide (p = 1) then 40 else 100 * p + 150)] |}.

Definition getAvailableOffsets (_ : Broker) (req : OffsetRequest.t) : res OffsetResponse.t :=
  ok {| OffsetResponse.Blocks :=
          (λ ps : gmap Z OffsetRequest.block,
             (map_imap (λ p b, Some (answer (OffsetRequest.time b) p)) ps
              : gmap Z OffsetResponse.Block))
            <$> OffsetRequest.blocks req |}.

(** What the log of commit requests, latest first, holds for a
    partition. *)
Fixpoint lookupCommitted (st : store) (group topic : string) (p : Z)
  : option OffsetCommitRequest.block :=
  match st with
  | [] => None
  | req :: st' =>
      if bool_decide (OffsetCommitRequest.ConsumerGroup req = group)
      then match OffsetCommitRequest.blocks req !! topic ≫= (λ ps, ps !! p) with
           | Some b => Some b
           | None => lookupCommitted st' group topic p
           end
      else lookupCommitted st' group topic p
  end.

Definition fetched (st : store) (group topic : string) (p : Z)
  : OffsetFetchResponse.Block :=
  match lookupCommitted st group topic p with
  | Some b =>
      {| OffsetFetchResponse.Offset := OffsetCommitRequest.offset b;
         OffsetFetchResponse.Metadata := OffsetCommitRequest.metadata b;
         OffsetFetchResponse.Err := ErrNoError |}
  | None =>
      {| OffsetFetchResponse.Offset := -1;
         OffsetFetchResponse.Metadata := "";
         OffsetFetchResponse.Err := ErrNoError |}
  end.

Definition fetchOffset (_ : Broker) (st : store) (req : OffsetFetchRequest.t)
  : res OffsetFetchResponse.t :=
  ok {| OffsetFetchResponse.Blocks :=
          map_imap (λ topic ps,
            Some (list_to_map
              ((λ p, (p, fetched st (OffsetFetchRequest.ConsumerGroup req) topic p))
                 <$> ps)))
            (OffsetFetchRequest.partitions req) |}.

Definition commitOffset (_ : Broker) (st : store) (req : OffsetCommitRequest.t)
  : store * res OffsetCommitResponse.t :=
  (req :: st,
   ok {| OffsetCommitResponse.Errors :=
           (λ ps : gmap Z OffsetCommitRequest.block,
              ((λ _, ErrNoError) <$> ps : gmap Z Z))
             <$> OffsetCommitRequest.blocks req |}).

Definition tree : gmap string (list string + string) :=
  list_to_map
    [("/consumers", inl ["g1"]);
     ("/consumers/g1/owners/orders", inl ["0"; "1"; "2"]);
     ("/consumers/g1/owners/orders/0", inr "clientA");
     ("/consumers/g1/owners/orders/1", inr "clientA");
     ("/consumers/g1/owners/orders/2", inr "clientB")].

Definition conn (tree : gmap string (list string + string)) : ZK.Conn :=
  {| ZK.Children := λ path,
       match tree !! path with
       | Some (inl names) => ok names
       | Some (inr _) => ok []
       | None => fail ZK.ErrNoNode
       end;
     ZK.Get := λ path,
       match tree !! path with
       | Some (inr data) => ok data
       | Some (inl _) => ok ""
       | None => fail ZK.ErrNoNode
       end |}.

Definition world : World store :=
  {| NewClient := λ _, ok client;
     Connect := λ _, ok (conn tree);
     ID := λ b, Z.of_nat b;
     GetAvailableOffsets := getAvailableOffsets;
     FetchOffset := fetchOffset;
     CommitOffset := commitOffset |}.

(** The same cluster with a coordinator that answers a fetch with no
    block at all. *)
Definition world_missing : World store :=
  {| NewClient := NewClient world;
     Connect := Connect world;
     ID := ID world;
     GetAvailableOffsets := GetAvailableOffsets world;
     FetchOffset := λ _ _ _, ok {| OffsetFetchResponse.Blocks := ∅ |};
     CommitOffset := CommitOffset world |}.

(** The same cluster with broker 2 unreachable. *)
Definition world_down : World store :=
  {| NewClient := NewClient world;
     Connect := Connect world;
     ID := ID world;
     GetAvailableOffsets := λ b req,
       if bool_decide (b = 2%nat) then fail (errorString "EOF")
       else getAvailableOffsets b req;
     FetchOffset := FetchOffset world;
     CommitOffset := CommitOffset world |}.

(** The same cluster with a coordinator that stores nothing and rejects
    the commits of partitions 1 and 2. *)
Definition world_rejecting : World store :=
  {| NewClient := NewClient world;
     Connect := Connect world;
     ID := ID world;
     GetAvailableOffsets := GetAvailableOffsets world;
     FetchOffset := FetchOffset world;
     CommitOffset := λ _ st _,
       (st, ok {| OffsetCommitResponse.Errors :=
                    {[ "orders" := list_to_map [(0, 0); (1, 3); (2, 12)] ]} |}) |}.

(** The same cluster over another tree store. *)
Definition world_over (c : ZK.Conn) : World store :=
  {| NewClient := NewClient world;
     Connect := λ _, ok c;
     ID := ID world;
     GetAvailableOffsets := GetAvailableOffsets world;
     FetchOffset := FetchOffset world;
     CommitOffset := CommitOffset world |}.

(** A tree store that lists the groups and then loses its connection. *)
Definition conn_closing : ZK.Conn :=
  {| ZK.Children := λ path,
       if bool_decide (path = "/consumers") then ok ["g1"]
       else fail (errorString "zk: connection closed");
     ZK.Get := λ _, fail (errorString "zk: connection closed") |}.

(** An ownership node with a child that is no partition id. *)
Definition tree_stray : gmap string (list string + string) :=
  list_to_map
    [("/consumers", inl ["g1"]);
     ("/consumers/g1/owners/orders", inl ["0"; "abc"]);
     ("/consumers/g1/owners/orders/0", inr "clientA");
     ("/consumers/g1/owners/orders/abc", inr "clientA")].

(** An ownership node with two children that spell the same partition
    id. *)
Definition tree_twice : gmap string (list string + string) :=
  list_to_map
    [("/consumers", inl ["g1"]);
     ("/consumers/g1/owners/orders", inl ["1"; "01"]);
     ("/consumers/g1/owners/orders/1", inr "clientA");
     ("/consumers/g1/owners/orders/01", inr "clientA")].

Definition admin : T :=
  Spawn {| Kafka_SeedPeers := ["localhost:9092"];
           ZooKeeper_SeedPeers := ["localhost:2181"];
           ZooKeeper_Chroot := "" |}.

(** [admin] once its cluster client is connected. *)
Definition admin_kafka : T :=
  {| cfg := cfg admin; kafkaClt := Some client; zkConn := None |}.

(** [admin] once it is connected to the tree store [c]. *)
Definition admin_zk (c : ZK.Conn) : T :=
  {| cfg := cfg admin; kafkaClt := None; zkConn := Some c |}.

Definition record (p o : Z) (m : string) : PartitionOffset :=
  {| Partition := p; Begin := 0; End_ := 0; Offset := o; Metadata := m |}.

(** An ownership node that lists a child which is gone when it is read,
    and one without children. *)
Definition tree_gone : gmap string (list string + string) :=
  list_to_map
    [("/consumers", inl ["g1"]);
     ("/consumers/g1/owners/orders", inl ["0"; "7"]);
     ("/consumers/g1/owners/orders/0", inr "clientA")].

Definition tree_idle : gmap string (list string + string) :=
  list_to_map
    [("/consumers", inl ["g0"; "g1"; "g2"]);
     ("/consumers/g0/owners/orders", inl []);
     ("/consumers/g1/owners/orders", inl ["0"; "1"; "2"]);
     ("/consumers/g1/owners/orders/0", inr "clientA");
     ("/consumers/g1/owners/orders/1", inr "clientA");
     ("/consumers/g1/owners/orders/2", inr "clientB")].

(** A world in which nothing can be dialed. *)
Definition world_offline : World store :=
  {| NewClient := λ _, fail (errorString "dial tcp: connection refused");
     Connect := λ _, fail (errorString "zk: could not connect to a server");
     ID := ID world;
     GetAvailableOffsets := GetAvailableOffsets world;
     FetchOffset := FetchOffset world;
     CommitOffset := CommitOffset world |}.

(** The answer of the coordinator of [world_rejecting] to a commit. *)
Definition rejection : OffsetCommitResponse.t :=
  {| OffsetCommitResponse.Errors :=
       {[ "orders" := list_to_map [(0, 0); (1, 3); (2, 12)] ]} |}.

(** [admin] once it holds the cluster client [c]. *)
Definition admin_with (c : Client) : T :=
  {| cfg := cfg admin; kafkaClt := Some c; zkConn := None |}.

(** A cluster client that finds no leader for partition 1, and one that
    finds no partition in any topic. *)
Definition client_lost : Client :=
  {| Partitions := Partitions client;
     Leader := λ _ p, if bool_decide (p = 1) then fail (KError 5) else ok 1%nat;
     Coordinator := Coordinator client |}.

Definition client_bare : Client :=
  {| Partitions := λ _, ok [];
     Leader := Leader client;
     Coordinator := Coordinator client |}.

(** The distribution of the partitions of [orders] among the brokers. *)
Definition buckets : gmap Broker (list indexedPartition) :=
  <[2%nat := [{| index := 1; partition := 1 |}]]>
    (<[1%nat := [{| index := 0; partition := 0 |};
                 {| index := 2; partition := 2 |}]]> ∅).

End Scenario.


Import Sarama Admin.

(** ** Predicates of the statements *)

Section Predicates.

(** The indexed partitions held by some bucket of the map. *)
Definition held (m : gmap Broker (list indexedPartition)) (xp : indexedPartition) : Prop :=
  ∃ b bucket, m !! b = Some bucket ∧ xp ∈ bucket.

(** The invariant of the stores: [offsets] has its length, every pending
    store of a partition id writes the id the partition list has at that
    index, and every index either has its id already or has a pending
    store of it. *)
Definition positional (partitions : list Z) (s : fanout) (pending : list action) : Prop :=
  length (offsets s) = length partitions ∧
  (∀ i v, Store i FPartition v ∈ pending → partitions !! i = Some v) ∧
  (∀ i p, partitions !! i = Some p →
     Partition <$> offsets s !! i = Some p ∨ Store i FPartition p ∈ pending).

(** An error was sent, or is about to be. *)
Definition raised (s : fanout) (pending : list action) : Prop :=
  errorsCh s ≠ [] ∨ ∃ e, Send e ∈ pending.

(** No nil is sent on the channel. *)
Definition nonNil (s : fanout) (pending : list action) : Prop :=
  (∀ e, e ∈ errorsCh s → is_Some e) ∧ (∀ e, Send e ∈ pending → is_Some e).

(** The interleavings, as a relation: one step is the next action of any
    goroutine that has one left. *)
Inductive steps : fanout * list (list action) → fanout * list (list action) → Prop :=
| steps_done c : steps c c
| steps_next s tasks k x rest c :
    tasks !! k = Some (x :: rest) →
    steps (exec x s, <[k := rest]> tasks) c →
    steps (s, tasks) c.

Definition isSend (x : action) : bool :=
  match x with
  | Send _ => true
  | Store _ _ _ => false
  end.

(** The response [res] of a broker does not yield an offset for the
    partition: the block is missing, carries an error code, or has an
    empty list of offsets. *)
Definition blockFails (res : OffsetResponse.t) (topic : string) (p : Z) : Prop :=
  match OffsetResponse.GetBlock res topic p with
  | None => True
  | Some block =>
      OffsetResponse.Err block ≠ ErrNoError ∨ OffsetResponse.Offsets block = []
  end.

(** The query of the offset ranges of [bucket] at [broker] fails. *)
Inductive queryFails {S} (w : World S) (topic : string) (broker : Broker)
    (bucket : list indexedPartition) : Prop :=
| oldest_transport e :
    GetAvailableOffsets w broker (offsetRequest topic OffsetOldest bucket) = fail e →
    queryFails w topic broker bucket
| newest_transport e :
    GetAvailableOffsets w broker (offsetRequest topic OffsetNewest bucket) = fail e →
    queryFails w topic broker bucket
| oldest_block res xp :
    GetAvailableOffsets w broker (offsetRequest topic OffsetOldest bucket) = ok res →
    xp ∈ bucket → blockFails res topic (partition xp) →
    queryFails w topic broker bucket
| newest_block res xp :
    GetAvailableOffsets w broker (offsetRequest topic OffsetNewest bucket) = ok res →
    xp ∈ bucket → blockFails res topic (partition xp) →
    queryFails w topic broker bucket.

(** The fields of a record that name a commit. *)
Definition committed (po : PartitionOffset) : Z * Z * string :=
  (Partition po, Offset po, Metadata po).

(** The last record of [records] for partition [p]. *)
Definition lastFor (p : Z) (records : list PartitionOffset) : option PartitionOffset :=
  last (filter (λ r, Partition r = p) records).


(** The partition id that the name of a partition node stands for. *)
Definition partitionID (name : string) : option Z :=
  match Atoi name with
  | ok v => Some (int32 v)
  | fail _ => None
  end.

(** The path of the ownership node of a group and topic. *)
Definition ownersPath (a : T) (group topic : string) : string :=
  ZooKeeper_Chroot (cfg a) ++ "/consumers/" ++ group ++ "/owners/" ++ topic.

End Predicates.

(** ** Further predicates: the content of the array *)

Section Content.

Definition getField (f : field) (po : PartitionOffset) : Z :=
  match f with
  | FPartition => Partition po
  | FBegin => Begin po
  | FEnd => End_ po
  end.

(** What broker [b], asked with the two requests of its bucket, reports
    for partition [p]: the first offset of the block of [p] in the answer
    for the oldest offsets and in the answer for the newest. *)
Definition reading {S} (w : World S) (topic : string) (b : Broker)
    (bucket : list indexedPartition) (p : Z) : option (Z * Z) :=
  match GetAvailableOffsets w b (offsetRequest topic OffsetOldest bucket),
        GetAvailableOffsets w b (offsetRequest topic OffsetNewest bucket) with
  | ok resOldest, ok resNewest =>
      match getOffsetResult resOldest topic p, getOffsetResult resNewest topic p with
      | ok begin, ok end_ => Some (begin, end_)
      | _, _ => None
      end
  | _, _ => None
  end.

Definition fieldOf (f : field) (p : Z) (range : Z * Z) : Z :=
  match f with
  | FPartition => p
  | FBegin => range.1
  | FEnd => range.2
  end.

(** The value that field [f] of the element at index [i] is to receive. *)
Definition expected {S} (w : World S) (topic : string) (partitions : list Z)
    (m : gmap Broker (list indexedPartition)) (i : nat) (f : field) (v : Z) : Prop :=
  ∃ p b bucket range,
    partitions !! i = Some p ∧ m !! b = Some bucket ∧
    {| index := i; partition := p |} ∈ bucket ∧
    reading w topic b bucket p = Some range ∧ v = fieldOf f p range.

(** The invariant of all the stores: every pending store writes the value
    its field is to receive, every field either has that value or has a
    pending store of it, and the committed fields are untouched. *)
Definition filled (R : nat → field → Z → Prop) (n : nat) (s : fanout)
    (pending : list action) : Prop :=
  length (offsets s) = n ∧
  (∀ po, po ∈ offsets s → Offset po = 0 ∧ Metadata po = "") ∧
  (∀ i f v, Store i f v ∈ pending → R i f v) ∧
  (∀ i f v, R i f v → getField f <$> offsets s !! i = Some v ∨ Store i f v ∈ pending).

(** No error is sent, now or later. *)
Definition quiet (s : fanout) (pending : list action) : Prop :=
  errorsCh s = [] ∧ ∀ e, Send e ∉ pending.


(** The two messages with which a fetcher reports a failure. *)
Definition fetchFailure {S} (w : World S) (b : Broker) (e : err) : Prop :=
  ∃ cause,
    e = Some (withStack cause "failed to fetch oldest offset, broker=%v" [AInt (ID w b)]) ∨
    e = Some (withStack cause "failed to fetch newest offset, broker=%v" [AInt (ID w b)]).

(** Client [client] owns partition [p]: some node of [names] stands for
    [p] and holds [client]. *)
Definition owns (zkConn : ZK.Conn) (path : string) (names : list string)
    (client : string) (p : Z) : Prop :=
  ∃ name, name ∈ names ∧ partitionID name = Some p ∧
          ZK.Get zkConn (path ++ "/" ++ name) = ok client.

(** The number of partitions that a map lists, all clients together. *)
Definition partitionCount (m : gmap string (list Z)) : nat :=
  sum_list_with (λ kv : string * list Z, length kv.2) (map_to_list m).

(** The slices that calls of [Swap] reach. *)
Inductive swapped : list Z → list Z → Prop :=
| swapped_refl p : swapped p p
| swapped_step p i j p' p'' : Swap p i j = Some p' → swapped p' p'' → swapped p p''.

(** The answer of the coordinator to a fetch with the error code of every
    block set to [ErrNoError]. *)
Definition clearErr (res : OffsetFetchResponse.t) : OffsetFetchResponse.t :=
  {| OffsetFetchResponse.Blocks :=
       (λ ps : gmap Z OffsetFetchResponse.Block,
          ((λ block,
              {| OffsetFetchResponse.Offset := OffsetFetchResponse.Offset block;
                 OffsetFetchResponse.Metadata := OffsetFetchResponse.Metadata block;
                 OffsetFetchResponse.Err := ErrNoError |}) <$> ps
           : gmap Z OffsetFetchResponse.Block))
         <$> OffsetFetchResponse.Blocks res |}.

(** The world [w] with a coordinator whose answers to a fetch carry no
    error code. *)
Definition withClearedErr {S} (w : World S) : World S :=
  {| NewClient := NewClient w;
     Connect := Connect w;
     ID := ID w;
     GetAvailableOffsets := GetAvailableOffsets w;
     FetchOffset := λ b st req,
       match FetchOffset w b st req with
       | ok res => ok (clearErr res)
       | fail e => fail e
       end;
     CommitOffset := CommitOffset w |}.

End Content.

(** ** Facts about the Go runtime model *)

Section GoFacts.

Lemma shuffle_Permutation {A} (n : nat) (seed : list nat) (l : list A) :
  length l = n → shuffle n seed l ≡ₚ l.
Proof.
  revert seed l. induction n as [|n IH]; intros seed l Hlen; simpl.
  - by destruct l.
  - assert (hd O seed `mod` length l < length l)%nat as Hlt
      by (apply Nat.mod_upper_bound; lia).
    destruct (lookup_lt_is_Some_2 l _ Hlt) as [x Hx]. rewrite Hx.
    etrans; [|symmetry; apply (delete_Permutation l _ x Hx)]. constructor.
    apply IH. rewrite length_delete; [lia | eauto].
Qed.

(** Every order of the entries is the choice of some seed. *)
Lemma shuffle_complete {A} (l' l : list A) :
  l' ≡ₚ l → ∃ seed, shuffle (length l) seed l = l'.
Proof.
  revert l. induction l' as [|x l' IH]; intros l Hp.
  - destruct l; [by exists []|]. by apply Permutation_nil_cons in Hp.
  - assert (x ∈ l) as Hx by (rewrite <- Hp; left).
    apply list_elem_of_lookup in Hx as [i Hi].
    pose proof (lookup_lt_Some _ _ _ Hi) as Hlt.
    assert (l' ≡ₚ delete i l) as Hp'.
    { apply (Permutation_cons_inv (a := x)).
      etrans; [apply Hp | apply (delete_Permutation l i x Hi)]. }
    destruct (IH _ Hp') as [seed Hseed].
    exists (i :: seed). destruct l as [|y l]; [done|].
    cbn [length shuffle hd tl]. rewrite Nat.mod_small by done.
    rewrite Hi. f_equal. rewrite <- Hseed. f_equal.
    rewrite length_delete by eauto. simpl. lia.
Qed.

Lemma range_Permutation {K} `{Countable K} {V} (seed : list nat) (m : gmap K V) :
  range seed m ≡ₚ map_to_list m.
Proof. by apply shuffle_Permutation. Qed.

Lemma range_complete {K} `{Countable K} {V} (m : gmap K V) (l : list (K * V)) :
  l ≡ₚ map_to_list m → ∃ seed, range seed m = l.
Proof. apply shuffle_complete. Qed.

Lemma elem_of_range {K} `{Countable K} {V} (seed : list nat) (m : gmap K V) k v :
  (k, v) ∈ range seed m ↔ m !! k = Some v.
Proof. by rewrite range_Permutation, elem_of_map_to_list. Qed.

#[local] Instance Zle_total : Total Z.le.
Proof. intros x y. lia. Qed.

#[local] Instance Zle_antisymm : AntiSymm (=) Z.le.
Proof. intros x y ??. lia. Qed.

Lemma sort_int32_Sorted (l : list Z) : Sorted Z.le (sort_int32 l).
Proof. apply Sorted_merge_sort; apply _. Qed.

Lemma sort_int32_Permutation (l : list Z) : sort_int32 l ≡ₚ l.
Proof. apply merge_sort_Permutation. Qed.

(** Whatever algorithm [sort.Sort] runs, its result is [sort_int32]. *)
Lemma sort_int32_unique (l l' : list Z) :
  Sorted Z.le l' → l' ≡ₚ l → l' = sort_int32 l.
Proof.
  intros Hs Hp. apply (Sorted_unique Z.le); [done | apply sort_int32_Sorted |].
  by rewrite Hp, sort_int32_Permutation.
Qed.

Lemma Wrapf_Some (e : error) (format : string) (args : list arg) :
  Wrapf (Some e) format args = Some (withStack e format args).
Proof. done. Qed.

(** Every non-nil error implements the interface [ErrInvalidParam]. *)
Lemma assertIface_ErrInvalidParam (e : error) :
  assertIface (Some e) ErrInvalidParam = true.
Proof. by destruct e. Qed.

End GoFacts.

(** ** The fan-out: invariants of every interleaving *)

Section Interleaving.

Lemma concat_pop (tasks : list (list action)) (k : nat) x rest :
  tasks !! k = Some (x :: rest) →
  ∀ y, y ∈ concat tasks ↔ y = x ∨ y ∈ concat (<[k := rest]> tasks).
Proof.
  intros Hk y. pose proof (lookup_lt_Some _ _ _ Hk) as Hlt.
  rewrite insert_take_drop by done.
  rewrite <- (take_drop_middle tasks k (x :: rest) Hk) at 1.
  rewrite !concat_app, !concat_cons. repeat rewrite ?elem_of_app, ?elem_of_cons.
  tauto.
Qed.

(** The schedules yield the interleavings, and nothing else. *)
Lemma run_steps sched tasks s : steps (s, tasks) (run sched tasks s).
Proof.
  revert tasks s. induction sched as [|k sched IH]; intros tasks s; simpl; [constructor|].
  destruct (tasks !! k) as [[|x rest]|] eqn:Hk; try apply IH.
  eapply steps_next; [exact Hk|apply IH].
Qed.

Lemma steps_run c c' : steps c c' → ∃ sched, run sched c.2 c.1 = c'.
Proof.
  induction 1 as [[s tasks]|s tasks k x rest c Hk _ [sched IH]].
  - by exists [].
  - exists (k :: sched). simpl in *. by rewrite Hk.
Qed.

Lemma finish_done tasks s : Forall (λ task, task = []) tasks → finish tasks s = s.
Proof. induction 1 as [|task tasks -> _ IH]; [done|]. apply IH. Qed.

(** Every run of the goroutines to their end is the outcome of [Wait]
    under some schedule. *)
Lemma steps_Wait s tasks s' tasks' :
  steps (s, tasks) (s', tasks') → Forall (λ task, task = []) tasks' →
  ∃ sched, Wait sched tasks s = s'.
Proof.
  intros [sched Hrun]%steps_run Hdone. exists sched. unfold Wait. simpl in Hrun.
  rewrite Hrun. by apply finish_done.
Qed.

(** [Inv s pending] relates the shared memory to the actions that the
    goroutines have yet to perform; it only has to survive one action. *)
Variable Inv : fanout → list action → Prop.
Hypothesis Inv_exec : ∀ s x pending pending',
  (∀ y, y ∈ pending ↔ y = x ∨ y ∈ pending') →
  Inv s pending → Inv (exec x s) pending'.

Lemma run_inv sched tasks s :
  Inv s (concat tasks) →
  Inv (run sched tasks s).1 (concat (run sched tasks s).2).
Proof.
  revert tasks s. induction sched as [|k sched IH]; intros tasks s HI; [done|].
  simpl. destruct (tasks !! k) as [[|x rest]|] eqn:Hk; try by apply IH.
  apply IH. eapply Inv_exec; [|done]. by apply concat_pop.
Qed.

Lemma finish_inv tasks s : Inv s (concat tasks) → Inv (finish tasks s) [].
Proof.
  revert s. induction tasks as [|task tasks IH]; intros s HI; [done|].
  revert s HI. induction task as [|x task IHt]; intros s HI; [by apply IH|].
  apply IHt. eapply Inv_exec; [|done].
  intros y. simpl. rewrite elem_of_cons. tauto.
Qed.

(** The invariant holds after any number of steps of any interleaving. *)
Lemma steps_inv c c' :
  steps c c' → Inv c.1 (concat c.2) → Inv c'.1 (concat c'.2).
Proof.
  induction 1 as [|s tasks k x rest c Hk _ IH]; [done|].
  intros HI. apply IH. simpl in *. eapply Inv_exec; [|done]. by apply concat_pop.
Qed.

Lemma Wait_inv sched tasks s : Inv s (concat tasks) → Inv (Wait sched tasks s) [].
Proof.
  intros HI. unfold Wait. pose proof (run_inv sched tasks s HI) as HI'.
  destruct (run sched tasks s) as [s' rest]. by apply finish_inv.
Qed.

End Interleaving.

Section Fanout.

Context {S : Type} (w : World S).

Lemma held_insert m b xp x :
  held (<[b := (default [] (m !! b) ++ [x])%list]> m) xp ↔ held m xp ∨ xp = x.
Proof.
  split.
  - intros (b' & bucket & Hb & Hin). destruct (decide (b = b')) as [<-|Hne].
    + rewrite lookup_insert_eq in Hb. injection Hb as <-.
      apply elem_of_app in Hin as [Hin|Hin%list_elem_of_singleton]; [|by right].
      left. destruct (m !! b) as [old|] eqn:Hold; [|by apply elem_of_nil in Hin].
      by exists b, old.
    + rewrite lookup_insert_ne in Hb by done. left. by exists b', bucket.
  - intros [(b' & bucket & Hb & Hin)| ->].
    + destruct (decide (b = b')) as [<-|Hne].
      * exists b, (bucket ++ [x])%list. rewrite lookup_insert_eq, Hb. split; [done|].
        apply elem_of_app. by left.
      * exists b', bucket. by rewrite lookup_insert_ne.
    + exists b, (default [] (m !! b) ++ [x])%list. rewrite lookup_insert_eq. split; [done|].
      apply elem_of_app. right. by apply list_elem_of_singleton.
Qed.

(** The buckets hold exactly the partitions of the topic, each with the
    index it has in the partition list. *)
Lemma distribute_held clt topic i partitions m m' :
  distribute clt topic i partitions m = inl m' →
  ∀ xp, held m' xp ↔
        held m xp ∨ ∃ j, partitions !! j = Some (partition xp) ∧ index xp = (i + j)%nat.
Proof.
  revert i m. induction partitions as [|p partitions IH]; intros i m Hd xp; simpl in Hd.
  - injection Hd as <-. split; [by left|]. intros [?|(j & Hj & _)]; [done|].
    by rewrite lookup_nil in Hj.
  - destruct (Leader clt topic p) as [broker|e]; [|done].
    rewrite (IH _ _ Hd), held_insert. split.
    + intros [[?| ->]|(j & Hj & Hi)]; [by left| |].
      * right. exists 0%nat. simpl. split; [done|lia].
      * right. exists (Datatypes.S j). split; [done|lia].
    + intros [?|([|j] & Hj & Hi)]; [by left; left| |].
      * left. right. simpl in Hj. destruct xp as [ix px]. simpl in *.
        injection Hj as ->. f_equal. lia.
      * right. exists j. split; [done|lia].
Qed.

Lemma held_empty xp : ¬ held ∅ xp.
Proof. intros (b & bucket & Hb & _). by rewrite lookup_empty in Hb. Qed.

(** No fetcher stores outside [offsets]. *)
Lemma distribute_index_lt clt topic partitions m xp :
  distribute clt topic 0 partitions ∅ = inl m →
  held m xp → (index xp < length partitions)%nat.
Proof.
  intros Hd Hh. apply (distribute_held _ _ _ _ _ _ Hd) in Hh as [Hh|(j & Hj & ->)].
  - by apply held_empty in Hh.
  - by apply lookup_lt_Some in Hj.
Qed.

(** *** What a fetcher does *)

Lemma fetchRanges_Send broker topic resOldest resNewest bucket e :
  Send e ∈ fetchRanges w broker topic resOldest resNewest bucket → is_Some e.
Proof.
  induction bucket as [|xp bucket IH]; simpl; [by intros ?%elem_of_nil|].
  destruct (getOffsetResult resOldest _ _); [|by intros [= ->]%list_elem_of_singleton].
  destruct (getOffsetResult resNewest _ _); [|by intros [= ->]%list_elem_of_singleton].
  rewrite !elem_of_cons. intros [?|[?|[?|?]]]; try done. by apply IH.
Qed.

Lemma offsetFetcher_Send topic broker bucket reqOldest reqNewest e :
  Send e ∈ offsetFetcher w topic broker bucket reqOldest reqNewest → is_Some e.
Proof.
  unfold offsetFetcher.
  destruct (GetAvailableOffsets w broker reqOldest); [|by intros [= ->]%list_elem_of_singleton].
  destruct (GetAvailableOffsets w broker reqNewest); [|by intros [= ->]%list_elem_of_singleton].
  apply fetchRanges_Send.
Qed.

Lemma fetchRanges_Store broker topic resOldest resNewest bucket i v :
  Store i FPartition v ∈ fetchRanges w broker topic resOldest resNewest bucket →
  ∃ xp, xp ∈ bucket ∧ i = index xp ∧ v = partition xp.
Proof.
  induction bucket as [|xp bucket IH]; simpl; [by intros ?%elem_of_nil|].
  destruct (getOffsetResult resOldest _ _); [|by intros ?%list_elem_of_singleton].
  destruct (getOffsetResult resNewest _ _); [|by intros ?%list_elem_of_singleton].
  rewrite !elem_of_cons. intros [Heq|[?|[?|Hin]]]; try done.
  - injection Heq as -> ->. exists xp. split; [left|done].
  - destruct (IH Hin) as (xp' & ? & ? & ?). exists xp'. split; [by right|done].
Qed.

Lemma offsetFetcher_Store topic broker bucket reqOldest reqNewest i v :
  Store i FPartition v ∈ offsetFetcher w topic broker bucket reqOldest reqNewest →
  ∃ xp, xp ∈ bucket ∧ i = index xp ∧ v = partition xp.
Proof.
  unfold offsetFetcher.
  destruct (GetAvailableOffsets w broker reqOldest); [|by intros ?%list_elem_of_singleton].
  destruct (GetAvailableOffsets w broker reqNewest); [|by intros ?%list_elem_of_singleton].
  apply fetchRanges_Store.
Qed.

(** A fetcher sends at most one error, so the channel, which has room for
    one error per fetcher, never blocks a send. *)
Lemma fetchRanges_one_Send broker topic resOldest resNewest bucket :
  (length (filter (λ x, isSend x = true)
             (fetchRanges w broker topic resOldest resNewest bucket)) ≤ 1)%nat.
Proof.
  induction bucket as [|xp bucket IH]; simpl; [lia|].
  destruct (getOffsetResult resOldest _ _); [|simpl; lia].
  destruct (getOffsetResult resNewest _ _); [|simpl; lia].
  by rewrite !filter_cons_False by done.
Qed.

Lemma offsetFetcher_one_Send topic broker bucket reqOldest reqNewest :
  (length (filter (λ x, isSend x = true)
             (offsetFetcher w topic broker bucket reqOldest reqNewest)) ≤ 1)%nat.
Proof.
  unfold offsetFetcher.
  destruct (GetAvailableOffsets w broker reqOldest); [|simpl; lia].
  destruct (GetAvailableOffsets w broker reqNewest); [|simpl; lia].
  apply fetchRanges_one_Send.
Qed.

(** A fetcher either sends an error or stores the partition id of every
    partition of its bucket. *)
Lemma fetchRanges_complete broker topic resOldest resNewest bucket :
  (∃ e, Send e ∈ fetchRanges w broker topic resOldest resNewest bucket) ∨
  (∀ xp, xp ∈ bucket →
     Store (index xp) FPartition (partition xp)
       ∈ fetchRanges w broker topic resOldest resNewest bucket).
Proof.
  induction bucket as [|xp bucket IH]; simpl; [right; by intros ? ?%elem_of_nil|].
  destruct (getOffsetResult resOldest _ _); [|left; eexists; left].
  destruct (getOffsetResult resNewest _ _); [|left; eexists; left].
  destruct IH as [[e He]|IH].
  - left. exists e. by do 3 right.
  - right. intros xp' [->|Hin]%elem_of_cons; [left|]. do 3 right. by apply IH.
Qed.

Lemma offsetFetcher_complete topic broker bucket reqOldest reqNewest :
  (∃ e, Send e ∈ offsetFetcher w topic broker bucket reqOldest reqNewest) ∨
  (∀ xp, xp ∈ bucket →
     Store (index xp) FPartition (partition xp)
       ∈ offsetFetcher w topic broker bucket reqOldest reqNewest).
Proof.
  unfold offsetFetcher.
  destruct (GetAvailableOffsets w broker reqOldest); [|left; eexists; left].
  destruct (GetAvailableOffsets w broker reqNewest); [|left; eexists; left].
  apply fetchRanges_complete.
Qed.

(** The actions of all the fetchers are those of the fetcher of some
    bucket, whatever the order of the [range]. *)
Lemma elem_of_spawnFetchers seed topic m y :
  y ∈ concat (spawnFetchers w seed topic m) ↔
  ∃ b bucket, m !! b = Some bucket ∧
    y ∈ offsetFetcher w topic b bucket
          (offsetRequest topic OffsetOldest bucket) (offsetRequest topic OffsetNewest bucket).
Proof.
  rewrite list_elem_of_In, in_concat. unfold spawnFetchers. split.
  - intros (task & Htask & Hy). apply list_elem_of_In, list_elem_of_fmap in Htask.
    destruct Htask as ([b bucket] & -> & Hin). apply elem_of_range in Hin.
    exists b, bucket. by rewrite list_elem_of_In.
  - intros (b & bucket & Hb & Hy). eexists. rewrite <- !list_elem_of_In.
    split; [|exact Hy]. apply list_elem_of_fmap. exists (b, bucket).
    split; [done|]. by apply elem_of_range.
Qed.

(** *** Stores never disturb the positions *)

Lemma Partition_setField f v po :
  Partition (setField f v po) = if decide (f = FPartition) then v else Partition po.
Proof. by destruct f. Qed.

Lemma positional_exec partitions s x pending pending' :
  (∀ y, y ∈ pending ↔ y = x ∨ y ∈ pending') →
  positional partitions s pending → positional partitions (exec x s) pending'.
Proof.
  intros Hpend (Hlen & Hcons & Hcov). split_and!.
  - destruct x; simpl; [by rewrite length_alter|done].
  - intros i v Hin. apply Hcons, Hpend. by right.
  - intros i p Hi.
    assert (is_Some (offsets s !! i)) as [po Hpo].
    { apply lookup_lt_is_Some. rewrite Hlen. by eapply lookup_lt_Some. }
    destruct (Hcov i p Hi) as [Hl|Hr].
    + left. rewrite Hpo in Hl. injection Hl as Hl.
      destruct x as [j f v|e]; simpl; [|by rewrite Hpo; simpl; f_equal].
      destruct (decide (j = i)) as [->|Hne];
        [|by rewrite list_lookup_alter_ne, Hpo by done; simpl; f_equal].
      rewrite list_lookup_alter_eq, Hpo. simpl. rewrite Partition_setField.
      case_decide as Hf; [subst f|by f_equal].
      f_equal. assert (partitions !! i = Some v) by (apply Hcons, Hpend; by left).
      congruence.
    + apply Hpend in Hr as [<-|Hr]; [|by right].
      left. simpl. by rewrite list_lookup_alter_eq, Hpo.
Qed.

(** *** Errors reach the channel *)

Lemma raised_exec s x pending pending' :
  (∀ y, y ∈ pending ↔ y = x ∨ y ∈ pending') →
  raised s pending → raised (exec x s) pending'.
Proof.
  intros Hpend [Hne|[e He]].
  - left. destruct x; simpl; [done|]. by destruct (errorsCh s).
  - apply Hpend in He as [<-|He]; [|right; by exists e].
    left. simpl. by destruct (errorsCh s).
Qed.

Lemma nonNil_exec s x pending pending' :
  (∀ y, y ∈ pending ↔ y = x ∨ y ∈ pending') →
  nonNil s pending → nonNil (exec x s) pending'.
Proof.
  intros Hpend [Hch Hp]. split.
  - destruct x as [|e']; simpl; [done|]. intros e [?| ->%list_elem_of_singleton]%elem_of_app.
    + by apply Hch.
    + apply Hp, Hpend. by left.
  - intros e He. apply Hp, Hpend. by right.
Qed.

(** *** The state the fetchers leave behind *)

Lemma positional_init clt seed topic partitions m :
  distribute clt topic 0 partitions ∅ = inl m →
  let pending := concat (spawnFetchers w seed topic m) in
  let s := {| offsets := replicate (length partitions) zeroPartitionOffset;
              errorsCh := [] |} in
  raised s pending ∨ positional partitions s pending.
Proof.
  intros Hd pending s.
  destruct (existsb isSend pending) eqn:Hsend.
  { left. right. apply existsb_exists in Hsend as ([|e] & Hin & Hx); [done|].
    exists e. by apply list_elem_of_In. }
  assert (∀ e, Send e ∉ pending) as Hnone.
  { intros e Hin. apply not_true_iff_false in Hsend. apply Hsend, existsb_exists.
    exists (Send e). by rewrite <- list_elem_of_In. }
  right. split_and!.
  - simpl. by rewrite length_replicate.
  - intros i v (b & bucket & Hb & Hin)%elem_of_spawnFetchers.
    apply offsetFetcher_Store in Hin as (xp & Hxp & -> & ->).
    assert (held m xp) as Hh by (by exists b, bucket).
    apply (distribute_held _ _ _ _ _ _ Hd) in Hh as [Hh|(j & Hj & ->)]; [|done].
    by apply held_empty in Hh.
  - intros i p Hi. right.
    assert (held m {| index := i; partition := p |}) as (b & bucket & Hb & Hin).
    { apply (distribute_held _ _ _ _ _ _ Hd). right. by exists i. }
    apply elem_of_spawnFetchers. exists b, bucket. split; [done|].
    destruct (offsetFetcher_complete topic b bucket
                (offsetRequest topic OffsetOldest bucket)
                (offsetRequest topic OffsetNewest bucket)) as [[e He]|Hall].
    + exfalso. apply (Hnone e), elem_of_spawnFetchers. by exists b, bucket.
    + by apply (Hall _ Hin).
Qed.

(** When no error was sent, every interleaving leaves the partition ids
    in the order of the partition list. *)
Lemma Wait_positional clt seed sched topic partitions m :
  distribute clt topic 0 partitions ∅ = inl m →
  let s := Wait sched (spawnFetchers w seed topic m)
             {| offsets := replicate (length partitions) zeroPartitionOffset;
                errorsCh := [] |} in
  errorsCh s = [] →
  length (offsets s) = length partitions ∧
  ∀ i, Partition <$> offsets s !! i = partitions !! i.
Proof.
  intros Hd s Hch.
  pose proof (Wait_inv (λ s pending, raised s pending ∨ positional partitions s pending))
    as Hinv.
  specialize (Hinv (λ s x pending pending' Hp HI,
    match HI with
    | or_introl H => or_introl (raised_exec s x pending pending' Hp H)
    | or_intror H => or_intror (positional_exec partitions s x pending pending' Hp H)
    end)).
  specialize (Hinv sched _ _ (positional_init clt seed topic partitions m Hd)).
  fold s in Hinv. destruct Hinv as [[Hne|[e He]]|(Hlen & _ & Hcov)].
  - done.
  - by apply elem_of_nil in He.
  - split; [done|]. intros i. destruct (partitions !! i) as [p|] eqn:Hi.
    + destruct (Hcov i p Hi) as [?|Hin]; [done|]. by apply elem_of_nil in Hin.
    + apply lookup_ge_None in Hi. rewrite (proj2 (lookup_ge_None _ _)); [done|lia].
Qed.

(** When some fetcher sends an error, every interleaving leaves a non-nil
    error at the head of the channel. *)
Lemma Wait_raised seed sched topic m offsets0 b bucket e :
  m !! b = Some bucket →
  Send e ∈ offsetFetcher w topic b bucket
             (offsetRequest topic OffsetOldest bucket)
             (offsetRequest topic OffsetNewest bucket) →
  ∃ e' rest,
    errorsCh (Wait sched (spawnFetchers w seed topic m)
                {| offsets := offsets0; errorsCh := [] |}) = Some e' :: rest.
Proof.
  intros Hb He.
  pose proof (Wait_inv (λ s pending, raised s pending ∧ nonNil s pending)) as Hinv.
  specialize (Hinv (λ s x pending pending' Hp HI,
    conj (raised_exec s x pending pending' Hp (proj1 HI))
         (nonNil_exec s x pending pending' Hp (proj2 HI)))).
  specialize (Hinv sched (spawnFetchers w seed topic m)
                {| offsets := offsets0; errorsCh := [] |}).
  destruct Hinv as [[Hne|[? Hin]] [Hsome _]].
  - split.
    + right. exists e. apply elem_of_spawnFetchers. by exists b, bucket.
    + split; [by intros ? ?%elem_of_nil|].
      intros e0 (b0 & bucket0 & _ & Hin)%elem_of_spawnFetchers.
      by apply offsetFetcher_Send in Hin.
  - destruct (errorsCh _) as [|e' rest] eqn:Hch; [done|].
    destruct (Hsome e') as [e'' ->]; [left|]. by exists e'', rest.
  - by apply elem_of_nil in Hin.
Qed.

(** *** Copying the committed offsets *)

Lemma fillCommitted_spec res topic i partitions offs offs' :
  fillCommitted res topic i partitions offs = inl offs' →
  length offs' = length offs ∧
  (∀ j, (j < i)%nat → offs' !! j = offs !! j) ∧
  (∀ k p, partitions !! k = Some p →
     ∃ block, OffsetFetchResponse.GetBlock res topic p = Some block ∧
              offs' !! (i + k)%nat = setCommitted block <$> offs !! (i + k)%nat).
Proof.
  revert i offs. induction partitions as [|p partitions IH]; intros i offs Hf; simpl in Hf.
  - injection Hf as <-. split_and!; [done..|]. intros k p Hk. by rewrite lookup_nil in Hk.
  - destruct (OffsetFetchResponse.GetBlock res topic p) as [block|] eqn:Hblock; [|done].
    destruct (IH _ _ Hf) as (Hlen & Hlow & Hhigh). split_and!.
    + by rewrite Hlen, length_alter.
    + intros j Hj. rewrite Hlow by lia. by rewrite list_lookup_alter_ne by lia.
    + intros [|k] p' Hk; simpl in Hk.
      * injection Hk as <-. exists block. split; [done|].
        rewrite Nat.add_0_r, Hlow by lia. by rewrite list_lookup_alter_eq.
      * destruct (Hhigh k p' Hk) as (block' & Hb' & Hl'). exists block'. split; [done|].
        replace (i + Datatypes.S k)%nat with (Datatypes.S i + k)%nat by lia.
        rewrite Hl'. by rewrite list_lookup_alter_ne by lia.
Qed.

Lemma fillCommitted_Partition res topic i partitions offs offs' :
  fillCommitted res topic i partitions offs = inl offs' →
  ∀ j, Partition <$> offs' !! j = Partition <$> offs !! j.
Proof.
  revert i offs. induction partitions as [|p partitions IH]; intros i offs Hf j; simpl in Hf.
  - by injection Hf as <-.
  - destruct (OffsetFetchResponse.GetBlock res topic p) as [block|]; [|done].
    rewrite (IH _ _ Hf), list_lookup_alter. case_decide; [subst|done].
    by destruct (offs !! j).
Qed.

(** Every [return] out of the loop returns [(nil, nil)]. *)
Lemma fillCommitted_return res topic i partitions offs r :
  fillCommitted res topic i partitions offs = inr r → r = (None, None).
Proof.
  revert i offs. induction partitions as [|p partitions IH]; intros i offs Hf; simpl in Hf.
  - done.
  - destruct (OffsetFetchResponse.GetBlock res topic p) as [block|]; [by eapply IH|].
    by injection Hf as <-.
Qed.

Lemma fillCommitted_missing res topic i partitions offs p :
  p ∈ partitions → OffsetFetchResponse.GetBlock res topic p = None →
  fillCommitted res topic i partitions offs = inr (None, None).
Proof.
  revert i offs. induction partitions as [|q partitions IH]; intros i offs Hin Hnone.
  - by apply elem_of_nil in Hin.
  - simpl. destruct (OffsetFetchResponse.GetBlock res topic q) as [block|] eqn:Hq; [|done].
    apply elem_of_cons in Hin as [->|Hin]; [congruence|]. by apply IH.
Qed.

(** *** Failing queries *)

Lemma getOffsetResult_fail res topic p :
  blockFails res topic p ↔ ∃ e, getOffsetResult res topic p = fail e.
Proof.
  unfold blockFails, getOffsetResult.
  destruct (OffsetResponse.GetBlock res topic p) as [block|]; [|split; eauto].
  case_bool_decide as Herr; [split; eauto|].
  destruct (OffsetResponse.Offsets block) as [|o os].
  - split; eauto.
  - split; [intros [?|?]; done | intros [e ?]; done].
Qed.

Lemma fetchRanges_fails broker topic resOldest resNewest bucket xp :
  xp ∈ bucket →
  blockFails resOldest topic (partition xp) ∨ blockFails resNewest topic (partition xp) →
  ∃ e, Send e ∈ fetchRanges w broker topic resOldest resNewest bucket.
Proof.
  intros Hin Hfail. induction bucket as [|xp' bucket IH]; [by apply elem_of_nil in Hin|].
  simpl.
  destruct (getOffsetResult resOldest topic (partition xp')) as [begin|e1] eqn:Ho;
    [|eexists; left].
  destruct (getOffsetResult resNewest topic (partition xp')) as [end_|e2] eqn:Hn;
    [|eexists; left].
  apply elem_of_cons in Hin as [->|Hin].
  - destruct Hfail as [[e He]%getOffsetResult_fail|[e He]%getOffsetResult_fail]; congruence.
  - destruct (IH Hin) as [e He]. exists e. by do 3 right.
Qed.

Lemma queryFails_Send topic broker bucket :
  queryFails w topic broker bucket →
  ∃ e, Send e ∈ offsetFetcher w topic broker bucket
                  (offsetRequest topic OffsetOldest bucket)
                  (offsetRequest topic OffsetNewest bucket).
Proof.
  unfold offsetFetcher.
  intros [e He|e He|res xp Hres Hin Hfail|res xp Hres Hin Hfail].
  - rewrite He. eexists; left.
  - destruct (GetAvailableOffsets w broker (offsetRequest topic OffsetOldest bucket));
      [rewrite He|]; eexists; left.
  - rewrite Hres.
    destruct (GetAvailableOffsets w broker (offsetRequest topic OffsetNewest bucket));
      [|eexists; left].
    apply (fetchRanges_fails _ _ _ _ _ xp); auto.
  - destruct (GetAvailableOffsets w broker (offsetRequest topic OffsetOldest bucket));
      [rewrite Hres|eexists; left].
    apply (fetchRanges_fails _ _ _ _ _ xp); auto.
Qed.

End Fanout.

(** ** GetGroupOffsets *)

(** C1. Whatever the leaders of the partitions, the order in which the
    fetchers are spawned and the interleaving of their actions, an array
    that [GetGroupOffsets] returns has one element per partition of the
    list that [Partitions] returned, and its [i]-th element carries the
    [i]-th partition of that list. *)
Theorem GetGroupOffsets_positional {S} (w : World S) (seed sched : list nat) (st : S)
    (a : T) (group topic : string) a' offs e :
  GetGroupOffsets w seed sched st a group topic = (a', (Some offs, e)) →
  ∃ kafkaClt partitions,
    lazyKafkaClt w a = (a', ok kafkaClt) ∧
    Partitions kafkaClt topic = ok partitions ∧
    length offs = length partitions ∧
    ∀ i, Partition <$> offs !! i = partitions !! i.
Proof.
  unfold GetGroupOffsets. intros Hget.
  destruct (lazyKafkaClt w a) as [a1 [kafkaClt|e1]]; [|done].
  destruct (Partitions kafkaClt topic) as [partitions|e2] eqn:Hparts; [|done].
  destruct (distribute kafkaClt topic 0 partitions ∅) as [m|r] eqn:Hd.
  2:{ exfalso. clear -Hd Hget. injection Hget as _ ->.
      revert Hd. generalize 0%nat (∅ : gmap Broker (list indexedPartition)).
      induction partitions as [|p ps IH]; intros i m; simpl; [done|].
      destruct (Leader kafkaClt topic p); [apply IH | done]. }
  pose proof (Wait_positional w kafkaClt seed sched topic partitions m Hd) as Hpos.
  simpl in Hpos.
  destruct (errorsCh _) as [|e3 ch]; [|done]. destruct (Hpos eq_refl) as [Hlen Hnth].
  destruct (Coordinator kafkaClt group) as [coordinator|e4]; [|done].
  destruct (FetchOffset w coordinator st _) as [res|e5]; [|done].
  destruct (fillCommitted res topic 0 partitions _) as [offs'|r] eqn:Hfill.
  2:{ apply fillCommitted_return in Hfill. by subst r. }
  injection Hget as <- <- <-. exists kafkaClt, partitions. split_and!; [done..| |].
  - destruct (fillCommitted_spec _ _ _ _ _ _ Hfill) as (-> & _). done.
  - intros i. by rewrite (fillCommitted_Partition _ _ _ _ _ _ Hfill).
Qed.

(** C1, on the cluster of the scenario: the array is
    [{0,100,150}, {1,20,40}, {2,300,350}] in that order, here with the
    fetcher of broker 2 spawned first and the two fetchers interleaved. *)
Lemma GetGroupOffsets_positional_witness :
  GetGroupOffsets Scenario.world [1%nat] [1; 0; 1; 1; 0]%nat [] Scenario.admin "g1" "orders"
  = (Scenario.admin_kafka,
     (Some [ {| Partition := 0; Begin := 100; End_ := 150; Offset := -1; Metadata := "" |};
             {| Partition := 1; Begin := 20; End_ := 40; Offset := -1; Metadata := "" |};
             {| Partition := 2; Begin := 300; End_ := 350; Offset := -1; Metadata := "" |} ],
      None))
  ∧ ∃ kafkaClt partitions,
      lazyKafkaClt Scenario.world Scenario.admin = (Scenario.admin_kafka, ok kafkaClt) ∧
      Partitions kafkaClt "orders" = ok partitions ∧
      3%nat = length partitions ∧
      ∀ i, Partition <$>
             [ {| Partition := 0; Begin := 100; End_ := 150; Offset := -1; Metadata := "" |};
               {| Partition := 1; Begin := 20; End_ := 40; Offset := -1; Metadata := "" |};
               {| Partition := 2; Begin := 300; End_ := 350; Offset := -1; Metadata := "" |} ]
             !! i = partitions !! i.
Proof.
  assert (GetGroupOffsets Scenario.world [1%nat] [1; 0; 1; 1; 0]%nat [] Scenario.admin
            "g1" "orders"
          = (Scenario.admin_kafka,
     (Some [ {| Partition := 0; Begin := 100; End_ := 150; Offset := -1; Metadata := "" |};
             {| Partition := 1; Begin := 20; End_ := 40; Offset := -1; Metadata := "" |};
             {| Partition := 2; Begin := 300; End_ := 350; Offset := -1; Metadata := "" |} ],
      None))) as Hrun by (vm_compute; reflexivity).
  split; [exact Hrun|].
  exact (GetGroupOffsets_positional Scenario.world _ _ _ _ _ _ _ _ _ Hrun).
Defined.

(** C2. When the response of the coordinator lacks the block of one of the
    partitions, [GetGroupOffsets] returns [(nil, nil)]: the error it means
    to return wraps nil, and wrapping nil yields nil. *)
Theorem GetGroupOffsets_missing_block {S} (w : World S) (seed sched : list nat) (st : S)
    (a : T) (group topic : string) a1 kafkaClt partitions m coordinator res p :
  lazyKafkaClt w a = (a1, ok kafkaClt) →
  Partitions kafkaClt topic = ok partitions →
  distribute kafkaClt topic 0 partitions ∅ = inl m →
  errorsCh (Wait sched (spawnFetchers w seed topic m)
              {| offsets := replicate (length partitions) zeroPartitionOffset;
                 errorsCh := [] |}) = [] →
  Coordinator kafkaClt group = ok coordinator →
  FetchOffset w coordinator st (offsetFetchRequest group topic partitions) = ok res →
  p ∈ partitions →
  OffsetFetchResponse.GetBlock res topic p = None →
  GetGroupOffsets w seed sched st a group topic = (a1, (None, None)).
Proof.
  intros Hclt Hparts Hd Hch Hcoord Hfetch Hin Hnone. unfold GetGroupOffsets.
  rewrite Hclt, Hparts, Hd. simpl. rewrite Hch, Hcoord, Hfetch.
  by rewrite (fillCommitted_missing _ _ _ _ _ p Hin Hnone).
Qed.

(** C2, where the coordinator answers with no block: no error is
    returned. *)
Lemma GetGroupOffsets_missing_block_witness :
  GetGroupOffsets Scenario.world_missing [] [] [] Scenario.admin "g1" "orders"
  = (Scenario.admin_kafka, (None, None)).
Proof.
  apply (GetGroupOffsets_missing_block Scenario.world_missing [] [] [] Scenario.admin
           "g1" "orders" Scenario.admin_kafka Scenario.client [0; 1; 2]
           (<[2%nat := [{| index := 1; partition := 1 |}]]>
              (<[1%nat := [{| index := 0; partition := 0 |};
                           {| index := 2; partition := 2 |}]]> ∅))
           3%nat {| OffsetFetchResponse.Blocks := ∅ |} 1).
  - reflexivity.
  - reflexivity.
  - vm_compute. reflexivity.
  - vm_compute. reflexivity.
  - reflexivity.
  - reflexivity.
  - right. left.
  - reflexivity.
Defined.

(** C4. When the query of the offset ranges fails at one broker, for a
    transport error, a missing block, an error code or an empty list of
    offsets, [GetGroupOffsets] returns nil and an error that is not nil,
    whatever the other brokers answer and however the fetchers
    interleave. *)
Theorem GetGroupOffsets_broker_failure {S} (w : World S) (seed sched : list nat) (st : S)
    (a : T) (group topic : string) a1 kafkaClt partitions m broker bucket :
  lazyKafkaClt w a = (a1, ok kafkaClt) →
  Partitions kafkaClt topic = ok partitions →
  distribute kafkaClt topic 0 partitions ∅ = inl m →
  m !! broker = Some bucket →
  queryFails w topic broker bucket →
  ∃ e, GetGroupOffsets w seed sched st a group topic = (a1, (None, Some e)).
Proof.
  intros Hclt Hparts Hd Hb Hfail. unfold GetGroupOffsets.
  rewrite Hclt, Hparts, Hd. simpl.
  destruct (queryFails_Send w _ _ _ Hfail) as [e0 He0].
  destruct (Wait_raised w seed sched topic m
              (replicate (length partitions) zeroPartitionOffset) broker bucket e0 Hb He0)
    as (e & rest & ->).
  by exists e.
Qed.

(** C4, with broker 2 unreachable and the fetcher of broker 1 running to
    its end first. *)
Lemma GetGroupOffsets_broker_failure_witness :
  ∃ e, GetGroupOffsets Scenario.world_down [] [0; 0; 0; 0; 0; 0; 0]%nat [] Scenario.admin
         "g1" "orders"
       = (Scenario.admin_kafka, (None, Some e)).
Proof.
  apply (GetGroupOffsets_broker_failure Scenario.world_down _ _ [] Scenario.admin
           "g1" "orders" Scenario.admin_kafka Scenario.client [0; 1; 2]
           (<[2%nat := [{| index := 1; partition := 1 |}]]>
              (<[1%nat := [{| index := 0; partition := 0 |};
                           {| index := 2; partition := 2 |}]]> ∅))
           2%nat [{| index := 1; partition := 1 |}]).
  - reflexivity.
  - reflexivity.
  - vm_compute. reflexivity.
  - vm_compute. reflexivity.
  - apply (oldest_transport _ _ _ _ (errorString "EOF")). reflexivity.
Defined.

(** ** SetGroupOffsets *)

Section Commit.

Lemma checkErrors_first pre p code post :
  Forall (λ pc : Z * Z, pc.2 = ErrNoError) pre → code ≠ ErrNoError →
  checkErrors (pre ++ (p, code) :: post)
  = Some (Some (withStack (KError code) "failed to commit offset, partition=%d" [AInt p])).
Proof.
  intros Hpre Hcode. induction Hpre as [|[q c] pre Hc _ IH]; simpl.
  - by rewrite bool_decide_eq_true_2.
  - simpl in Hc. by rewrite bool_decide_eq_false_2 by (by intros ?).
Qed.

Lemma checkErrors_None entries :
  checkErrors entries = None ↔ Forall (λ pc : Z * Z, pc.2 = ErrNoError) entries.
Proof.
  induction entries as [|[q c] entries IH]; simpl; [done|].
  rewrite Forall_cons. simpl. case_bool_decide as Hc.
  - split; [done|]. by intros [? _].
  - rewrite IH. tauto.
Qed.

Lemma offsetCommitRequest_snoc group topic records r :
  offsetCommitRequest group topic (records ++ [r])
  = OffsetCommitRequest.AddBlock (offsetCommitRequest group topic records) topic
      (Partition r) (Offset r) ReceiveTime (Metadata r).
Proof. unfold offsetCommitRequest. by rewrite foldl_snoc. Qed.

Lemma offsetCommitRequest_group group topic records :
  OffsetCommitRequest.ConsumerGroup (offsetCommitRequest group topic records) = group.
Proof.
  induction records as [|r records IH] using rev_ind; [done|].
  by rewrite offsetCommitRequest_snoc.
Qed.

(** The request holds, for each partition, the block of the last record
    for it. *)
Lemma offsetCommitRequest_blocks group topic records p :
  OffsetCommitRequest.blocks (offsetCommitRequest group topic records) !! topic
    ≫= (λ ps, ps !! p)
  = (λ r, {| OffsetCommitRequest.offset := Offset r;
             OffsetCommitRequest.timestamp := ReceiveTime;
             OffsetCommitRequest.metadata := Metadata r |}) <$> lastFor p records.
Proof.
  unfold lastFor. induction records as [|r records IH] using rev_ind; [done|].
  rewrite offsetCommitRequest_snoc, filter_app, filter_cons, filter_nil. simpl.
  rewrite lookup_insert_eq. simpl. case_decide as Hp.
  - subst p. by rewrite lookup_insert_eq, last_snoc.
  - rewrite lookup_insert_ne by done. rewrite app_nil_r, <- IH.
    by destruct (OffsetCommitRequest.blocks _ !! topic).
Qed.

Lemma offsetCommitRequest_committed group topic records1 records2 :
  committed <$> records1 = committed <$> records2 →
  offsetCommitRequest group topic records1 = offsetCommitRequest group topic records2.
Proof.
  unfold offsetCommitRequest. generalize
    {| OffsetCommitRequest.Version := ProtocolVer1;
       OffsetCommitRequest.ConsumerGroup := group;
       OffsetCommitRequest.ConsumerGroupGeneration := GroupGenerationUndefined;
       OffsetCommitRequest.blocks := ∅ |}.
  revert records2. induction records1 as [|r1 records1 IH]; intros [|r2 records2] req Heq;
    try done.
  simpl in Heq. injection Heq as Hp Ho Hm Heq. simpl. rewrite Hp, Ho, Hm. by apply IH.
Qed.



End Commit.

(** C5, amended. Once the coordinator has answered, [SetGroupOffsets]
    returns the error of the first entry of [res.Errors[topic]], in the
    order in which the [range] over that map yields its entries ([seed],
    an order of the runtime's choosing and not one the response fixes),
    whose code is not [ErrNoError], for the partition of that entry and
    whatever the entries after it; and it returns nil when every code is
    [ErrNoError]. *)
Theorem SetGroupOffsets_first_error {S} (w : World S) (seed : list nat) (st : S) (a : T)
    (group topic : string) (records : list PartitionOffset) a1 kafkaClt coordinator st' res :
  lazyKafkaClt w a = (a1, ok kafkaClt) →
  Coordinator kafkaClt group = ok coordinator →
  CommitOffset w coordinator st (offsetCommitRequest group topic records) = (st', ok res) →
  (∀ pre p code post,
     range seed (default ∅ (OffsetCommitResponse.Errors res !! topic))
       = (pre ++ (p, code) :: post)%list →
     Forall (λ pc, pc.2 = ErrNoError) pre → code ≠ ErrNoError →
     SetGroupOffsets w seed st a group topic records
     = (a1, st', Some (withStack (KError code) "failed to commit offset, partition=%d"
                         [AInt p]))) ∧
  ((∀ p code, default ∅ (OffsetCommitResponse.Errors res !! topic) !! p = Some code →
              code = ErrNoError) →
   SetGroupOffsets w seed st a group topic records = (a1, st', None)).
Proof.
  intros Hclt Hcoord Hcommit. unfold SetGroupOffsets. rewrite Hclt, Hcoord, Hcommit. split.
  - intros pre p code post -> Hpre Hcode. by rewrite checkErrors_first.
  - intros Hall.
    rewrite (proj2 (checkErrors_None _)); [done|].
    apply Forall_forall. intros [p code] Hin%elem_of_range. by apply (Hall p).
Qed.

(** C5, with a coordinator that reports [{0: 0, 1: 3, 2: 12}], ranged over
    in the order 0, 2, 1: the error is that of partition 2; and with the
    coordinator of the scenario, which reports no error. *)
Lemma SetGroupOffsets_first_error_witness :
  SetGroupOffsets Scenario.world_rejecting [2%nat] [] Scenario.admin "g1" "orders"
    [Scenario.record 1 42 "chk1"]
  = (Scenario.admin_kafka, [],
     Some (withStack (KError 12) "failed to commit offset, partition=%d" [AInt 2]))
  ∧ SetGroupOffsets Scenario.world [] [] Scenario.admin "g1" "orders"
      [Scenario.record 1 42 "chk1"]
    = (Scenario.admin_kafka,
       [offsetCommitRequest "g1" "orders" [Scenario.record 1 42 "chk1"]], None).
Proof.
  split.
  - apply (SetGroupOffsets_first_error Scenario.world_rejecting [2%nat] [] Scenario.admin
             "g1" "orders" [Scenario.record 1 42 "chk1"] Scenario.admin_kafka
             Scenario.client 3%nat []
             {| OffsetCommitResponse.Errors :=
                  {[ "orders" := list_to_map [(0, 0); (1, 3); (2, 12)] ]} |}
             eq_refl eq_refl eq_refl) with (pre := [(0, 0)]) (post := [(1, 3)]).
    + vm_compute. reflexivity.
    + repeat constructor.
    + discriminate.
  - apply (SetGroupOffsets_first_error Scenario.world [] [] Scenario.admin
             "g1" "orders" [Scenario.record 1 42 "chk1"] Scenario.admin_kafka
             Scenario.client 3%nat
             [offsetCommitRequest "g1" "orders" [Scenario.record 1 42 "chk1"]]
             {| OffsetCommitResponse.Errors := {[ "orders" := {[ 1 := 0 ]} ]} |}
             eq_refl eq_refl).
    + vm_compute. reflexivity.
    + intros p code. cbn [OffsetCommitResponse.Errors]. rewrite lookup_singleton_eq.
      cbn [default id]. intros [_ <-]%lookup_singleton_Some. reflexivity.
Defined.

(** C5, as stated, fails: no order that the response fixes decides which
    error is returned.  For the one response [{0: 0, 1: 3, 2: 12}] the
    [range] that yields 0, 2, 1 makes [SetGroupOffsets] return the error of
    partition 2, and the [range] that yields 1 first the error of
    partition 1. *)
Lemma SetGroupOffsets_not_in_response_order :
  ¬ (∃ order : gmap Z Z → list (Z * Z),
       ∀ seed : list nat,
         SetGroupOffsets Scenario.world_rejecting seed [] Scenario.admin "g1" "orders"
           [Scenario.record 1 42 "chk1"]
         = (Scenario.admin_kafka, [],
            match checkErrors
                    (order (default ∅ (OffsetCommitResponse.Errors Scenario.rejection
                                         !! "orders"))) with
            | Some r => r
            | None => None
            end)).
Proof.
  intros [order Horder].
  assert (SetGroupOffsets Scenario.world_rejecting [2%nat] [] Scenario.admin "g1" "orders"
            [Scenario.record 1 42 "chk1"]
          = (Scenario.admin_kafka, [],
             Some (withStack (KError 12) "failed to commit offset, partition=%d" [AInt 2])))
    as H2 by (vm_compute; reflexivity).
  assert (SetGroupOffsets Scenario.world_rejecting [1%nat] [] Scenario.admin "g1" "orders"
            [Scenario.record 1 42 "chk1"]
          = (Scenario.admin_kafka, [],
             Some (withStack (KError 3) "failed to commit offset, partition=%d" [AInt 1])))
    as H1 by (vm_compute; reflexivity).
  rewrite (Horder [2%nat]) in H2. rewrite (Horder [1%nat]) in H1.
  rewrite H2 in H1. apply (f_equal snd) in H1. simpl in H1. discriminate H1.
Qed.

(** C9. Two lists of records that agree on [Partition], [Offset] and
    [Metadata] yield the same commit request and the same outcome of
    [SetGroupOffsets]: [Begin] and [End] are not read. *)
Theorem SetGroupOffsets_ignores_range {S} (w : World S) (seed : list nat) (st : S) (a : T)
    (group topic : string) (records1 records2 : list PartitionOffset) :
  committed <$> records1 = committed <$> records2 →
  offsetCommitRequest group topic records1 = offsetCommitRequest group topic records2 ∧
  SetGroupOffsets w seed st a group topic records1
  = SetGroupOffsets w seed st a group topic records2.
Proof.
  intros Heq. pose proof (offsetCommitRequest_committed group topic _ _ Heq) as Hreq.
  split; [done|]. unfold SetGroupOffsets. by rewrite Hreq.
Qed.

(** C9, for two records of partition 1 with different ranges. *)
Lemma SetGroupOffsets_ignores_range_witness :
  offsetCommitRequest "g1" "orders"
    [{| Partition := 1; Begin := 20; End_ := 40; Offset := 42; Metadata := "chk1" |}]
  = offsetCommitRequest "g1" "orders"
      [{| Partition := 1; Begin := 0; End_ := 7; Offset := 42; Metadata := "chk1" |}]
  ∧ SetGroupOffsets Scenario.world [] [] Scenario.admin "g1" "orders"
      [{| Partition := 1; Begin := 20; End_ := 40; Offset := 42; Metadata := "chk1" |}]
    = SetGroupOffsets Scenario.world [] [] Scenario.admin "g1" "orders"
        [{| Partition := 1; Begin := 0; End_ := 7; Offset := 42; Metadata := "chk1" |}].
Proof.
  apply (SetGroupOffsets_ignores_range Scenario.world [] [] Scenario.admin "g1" "orders").
  reflexivity.
Defined.

(** ** Commit, then fetch *)

Section RoundTrip.



(** What a [GetGroupOffsets] that returns an array went through, and
    where the committed fields of its elements come from. *)
Lemma GetGroupOffsets_Some {S} (w : World S) seed sched st a group topic a' offs e :
  GetGroupOffsets w seed sched st a group topic = (a', (Some offs, e)) →
  ∃ kafkaClt partitions coordinator res,
    lazyKafkaClt w a = (a', ok kafkaClt) ∧
    Partitions kafkaClt topic = ok partitions ∧
    Coordinator kafkaClt group = ok coordinator ∧
    FetchOffset w coordinator st (offsetFetchRequest group topic partitions) = ok res ∧
    ∀ i po, offs !! i = Some po →
      ∃ block, partitions !! i = Some (Partition po) ∧
               OffsetFetchResponse.GetBlock res topic (Partition po) = Some block ∧
               Offset po = OffsetFetchResponse.Offset block ∧
               Metadata po = OffsetFetchResponse.Metadata block.
Proof.
  unfold GetGroupOffsets. intros Hget.
  destruct (lazyKafkaClt w a) as [a1 [kafkaClt|e1]] eqn:Hclt; [|done].
  destruct (Partitions kafkaClt topic) as [partitions|e2] eqn:Hparts; [|done].
  destruct (distribute kafkaClt topic 0 partitions ∅) as [m|r] eqn:Hd.
  2:{ exfalso. clear -Hd Hget. injection Hget as _ ->.
      revert Hd. generalize 0%nat (∅ : gmap Broker (list indexedPartition)).
      induction partitions as [|p ps IH]; intros i m; simpl; [done|].
      destruct (Leader kafkaClt topic p); [apply IH | done]. }
  pose proof (Wait_positional w kafkaClt seed sched topic partitions m Hd) as Hpos.
  simpl in Hpos.
  destruct (errorsCh _) as [|e3 ch]; [|done]. destruct (Hpos eq_refl) as [Hlen Hnth].
  destruct (Coordinator kafkaClt group) as [coordinator|e4] eqn:Hcoord; [|done].
  destruct (FetchOffset w coordinator st _) as [res|e5] eqn:Hfetch; [|done].
  destruct (fillCommitted res topic 0 partitions _) as [offs'|r] eqn:Hfill.
  2:{ apply fillCommitted_return in Hfill. by subst r. }
  injection Hget as <- <- <-. exists kafkaClt, partitions, coordinator, res.
  split_and!; [done..|]. intros i po Hi.
  destruct (fillCommitted_spec _ _ _ _ _ _ Hfill) as (Hlen' & _ & Hhigh).
  assert (Partition <$> offs' !! i = partitions !! i) as Hp.
  { by rewrite (fillCommitted_Partition _ _ _ _ _ _ Hfill). }
  rewrite Hi in Hp. simpl in Hp. symmetry in Hp.
  destruct (Hhigh i _ Hp) as (block & Hblock & Hl). simpl in Hl. rewrite Hi in Hl.
  exists block. split_and!; [done..| |].
  - destruct (offsets _ !! i); [|done]. by injection Hl as ->.
  - destruct (offsets _ !! i); [|done]. by injection Hl as ->.
Qed.


End RoundTrip.



(** ** GetTopicConsumers *)

Section Owners.

Context {S : Type} (w : World S).

(** What a [GetTopicConsumers] that returns a map went through. *)
Lemma GetTopicConsumers_Some a group topic a' m e :
  GetTopicConsumers w a group topic = (a', (Some m, e)) →
  ∃ zkConn names consumers,
    lazyZKConn w a = (a', ok zkConn) ∧
    ZK.Children zkConn (ownersPath a' group topic) = ok names ∧
    owners zkConn (ownersPath a' group topic) names ∅ = inl consumers ∧
    m = sort_int32 <$> consumers ∧ e = None.
Proof.
  unfold GetTopicConsumers, ownersPath. intros Hget.
  destruct (lazyZKConn w a) as [a1 [zkConn|e1]]; [|done].
  injection Hget as <- Hget.
  destruct (ZK.Children zkConn _) as [names|e2] eqn:Hnames.
  2:{ by case_bool_decide. }
  destruct (owners zkConn _ names ∅) as [consumers|r] eqn:Howners.
  - injection Hget as <- <-. by exists zkConn, names, consumers.
  - exfalso. subst r. revert Howners. clear. generalize (∅ : gmap string (list Z)).
    induction names as [|name names IH]; intros consumers; simpl; [done|].
    destruct (Atoi name); [|done]. destruct (ZK.Get zkConn _); [apply IH|done].
Qed.

Lemma owners_nonempty zkConn path names consumers consumers' :
  owners zkConn path names consumers = inl consumers' →
  (∀ client l, consumers !! client = Some l → l ≠ []) →
  ∀ client l, consumers' !! client = Some l → l ≠ [].
Proof.
  revert consumers. induction names as [|name names IH]; intros consumers Ho Hne; simpl in Ho.
  - by injection Ho as <-.
  - destruct (Atoi name) as [partition|]; [|done].
    destruct (ZK.Get zkConn _) as [clientID|]; [|done].
    apply (IH _ Ho). intros client l. rewrite lookup_insert.
    case_decide; [|by apply Hne]. intros [= <-]. by destruct (default [] _).
Qed.

(** The list of a client is drawn, in order, from the partition ids of
    the nodes. *)
Lemma owners_sublist zkConn path names consumers consumers' processed :
  owners zkConn path names consumers = inl consumers' →
  (∀ client l, consumers !! client = Some l → l `sublist_of` processed) →
  ∀ client l, consumers' !! client = Some l →
              l `sublist_of` (processed ++ omap partitionID names)%list.
Proof.
  revert consumers processed.
  induction names as [|name names IH]; intros consumers processed Ho Hsub; simpl in Ho.
  - injection Ho as <-. simpl. rewrite app_nil_r. done.
  - destruct (Atoi name) as [partition|] eqn:Hname; [|done].
    destruct (ZK.Get zkConn _) as [clientID|]; [|done].
    assert (partitionID name = Some (int32 partition)) as Hid
      by (unfold partitionID; by rewrite Hname).
    change (omap partitionID (name :: names))
      with (match partitionID name with
            | Some y => y :: omap partitionID names
            | None => omap partitionID names
            end).
    rewrite Hid, (cons_middle (int32 partition)), app_assoc.
    apply (IH _ _ Ho). intros client l. rewrite lookup_insert.
    case_decide as Hc.
    + intros [= <-]. apply sublist_app; [|done].
      destruct (consumers !! clientID) as [old|] eqn:Hold; [by eapply Hsub|].
      apply sublist_nil_l.
    + intros Hl. apply sublist_inserts_r. by eapply Hsub.
Qed.

Lemma Sorted_le_NoDup (l : list Z) : Sorted Z.le l → NoDup l → Sorted Z.lt l.
Proof.
  induction 1 as [|x l Hs IH Hhd]; intros Hnd; [constructor|].
  apply NoDup_cons in Hnd as [Hx Hnd]. constructor; [by apply IH|].
  destruct Hhd as [|y l Hxy]; constructor.
  assert (x ≠ y) by (intros ->; apply Hx; left). lia.
Qed.

End Owners.

(** C10. No client of a map that [GetTopicConsumers] returns has an empty
    list of partitions. *)
Theorem GetTopicConsumers_nonempty {S} (w : World S) (a : T) (group topic : string)
    a' m e client (ps : list Z) :
  GetTopicConsumers w a group topic = (a', (Some m, e)) →
  m !! client = Some ps →
  ps ≠ [].
Proof.
  intros (zkConn & names & consumers & _ & _ & Ho & -> & _)%GetTopicConsumers_Some.
  rewrite lookup_fmap. destruct (consumers !! client) as [l|] eqn:Hl; [|done].
  intros [= <-] Hnil.
  assert (l ≠ []) as Hne.
  { eapply owners_nonempty; [exact Ho| |exact Hl]. intros ? ?. by rewrite lookup_empty. }
  apply Hne, Permutation_nil_r. rewrite <- Hnil. symmetry. apply sort_int32_Permutation.
Qed.

(** C10, on the tree of the scenario. *)
Lemma GetTopicConsumers_nonempty_witness : [0; 1] ≠ ([] : list Z).
Proof.
  apply (GetTopicConsumers_nonempty Scenario.world Scenario.admin "g1" "orders"
           (Scenario.admin_zk (Scenario.conn Scenario.tree))
           {[ "clientA" := [0; 1]; "clientB" := [2] ]} None "clientA").
  - vm_compute. reflexivity.
  - reflexivity.
Defined.

(** C7, as stated, fails: the nodes [1] and [01] of one client both stand
    for partition 1, and the list of the client is [1, 1]. *)
Lemma GetTopicConsumers_not_strictly_ascending :
  ¬ (∀ (w : World Scenario.store) (a : T) (group topic : string) a' m e client (ps : list Z),
       GetTopicConsumers w a group topic = (a', (Some m, e)) →
       m !! client = Some ps →
       Sorted Z.lt ps).
Proof.
  intros Hclaim.
  assert (Sorted Z.lt [1; 1]) as Hs.
  { apply (Hclaim (Scenario.world_over (Scenario.conn Scenario.tree_twice)) Scenario.admin
             "g1" "orders" (Scenario.admin_zk (Scenario.conn Scenario.tree_twice))
             {[ "clientA" := [1; 1] ]} None "clientA").
    - vm_compute. reflexivity.
    - reflexivity. }
  apply Sorted_inv in Hs as [_ Hhd]. apply HdRel_inv in Hhd. lia.
Qed.

(** C7, amended. The list of every client of a map that
    [GetTopicConsumers] returns is in ascending order; it is strictly
    ascending, hence free of duplicates, when the names of the partition
    nodes stand for pairwise distinct partition ids. *)
Theorem GetTopicConsumers_ascending {S} (w : World S) (a : T) (group topic : string)
    a' m e client (ps : list Z) :
  GetTopicConsumers w a group topic = (a', (Some m, e)) →
  m !! client = Some ps →
  Sorted Z.le ps ∧
  (∀ zkConn names,
     lazyZKConn w a = (a', ok zkConn) →
     ZK.Children zkConn (ownersPath a' group topic) = ok names →
     NoDup (omap partitionID names) →
     Sorted Z.lt ps).
Proof.
  intros (zkConn & names & consumers & Hconn & Hnames & Ho & -> & _)%GetTopicConsumers_Some.
  rewrite lookup_fmap. destruct (consumers !! client) as [l|] eqn:Hl; [|done].
  intros [= <-]. split; [apply sort_int32_Sorted|].
  intros zkConn' names' Hconn' Hnames' Hnd.
  rewrite Hconn in Hconn'. injection Hconn' as <-.
  rewrite Hnames in Hnames'. injection Hnames' as <-.
  apply Sorted_le_NoDup; [apply sort_int32_Sorted|].
  rewrite sort_int32_Permutation.
  apply (sublist_NoDup l (omap partitionID names)); [done|].
  apply (owners_sublist _ _ _ _ _ [] Ho) with (client := client); [|done].
  intros ? ?. by rewrite lookup_empty.
Qed.

(** C7 amended, on the tree of the scenario, whose nodes [0], [1], [2]
    stand for three partitions. *)
Lemma GetTopicConsumers_ascending_witness :
  Sorted Z.le [0; 1] ∧ Sorted Z.lt [0; 1].
Proof.
  destruct (GetTopicConsumers_ascending Scenario.world Scenario.admin "g1" "orders"
              (Scenario.admin_zk (Scenario.conn Scenario.tree))
              {[ "clientA" := [0; 1]; "clientB" := [2] ]} None "clientA" [0; 1])
    as [Hle Hlt].
  - vm_compute. reflexivity.
  - reflexivity.
  - split; [exact Hle|].
    apply (Hlt (Scenario.conn Scenario.tree) ["0"; "1"; "2"]).
    + reflexivity.
    + vm_compute. reflexivity.
    + assert (omap partitionID ["0"; "1"; "2"] = [0; 1; 2]) as ->
        by (vm_compute; reflexivity).
      apply (bool_decide_unpack (NoDup [0; 1; 2])). vm_compute. exact I.
Defined.

(** ** The kinds of errors *)

Section Kinds.

Context {S : Type} (w : World S).

(** A node whose name is no partition id makes the loop return an
    error, unless reading an earlier node already did. *)
Lemma owners_stray zkConn path names consumers name :
  name ∈ names → partitionID name = None →
  ∃ e, owners zkConn path names consumers = inr (None, Some e).
Proof.
  intros Hin Hid. revert consumers.
  induction names as [|name' names IH]; intros consumers; [by apply elem_of_nil in Hin|].
  simpl. destruct (Atoi name') as [partition|e] eqn:Hname; [|by eexists].
  destruct (ZK.Get zkConn _) as [clientID|e]; [|by eexists].
  apply elem_of_cons in Hin as [->|Hin]; [|by apply IH].
  unfold partitionID in Hid. by rewrite Hname in Hid.
Qed.

(** No scan of a group makes the loop over the groups return. *)
Lemma scanGroups_continues a topic groups consumers :
  ∃ a' consumers', scanGroups w a topic groups consumers = (a', inl consumers').
Proof.
  revert a consumers. induction groups as [|group groups IH]; intros a consumers; simpl.
  - by eexists _, _.
  - destruct (GetTopicConsumers w a group topic) as [a1 [groupConsumers [e|]]].
    + rewrite assertIface_ErrInvalidParam. apply IH.
    + apply IH.
Qed.

End Kinds.

(** C6. [GetTopicConsumers] fails when the ownership node does not exist,
    when the tree store fails otherwise, and when a partition node has a
    name that is no partition id; in the three cases alike the error it
    returns passes the assertion [err.(ErrInvalidParam)], the test of the
    package for the NotFound kind. *)
Theorem GetTopicConsumers_error_kinds {S} (w : World S) (a : T) (group topic : string)
    a1 zkConn :
  lazyZKConn w a = (a1, ok zkConn) →
  (ZK.Children zkConn (ownersPath a1 group topic) = fail ZK.ErrNoNode →
   GetTopicConsumers w a group topic
   = (a1, (None, Some (fundamental "either group or topic is incorrect" []))) ∧
   assertIface (Some (fundamental "either group or topic is incorrect" []))
     ErrInvalidParam = true) ∧
  (∀ e0, ZK.Children zkConn (ownersPath a1 group topic) = fail e0 → e0 ≠ ZK.ErrNoNode →
   GetTopicConsumers w a group topic
   = (a1, (None, Some (withStack e0 "failed to fetch partition owners data" []))) ∧
   assertIface (Some (withStack e0 "failed to fetch partition owners data" []))
     ErrInvalidParam = true) ∧
  (∀ names name, ZK.Children zkConn (ownersPath a1 group topic) = ok names →
   name ∈ names → partitionID name = None →
   ∃ e, GetTopicConsumers w a group topic = (a1, (None, Some e)) ∧
        assertIface (Some e) ErrInvalidParam = true).
Proof.
  intros Hconn. unfold GetTopicConsumers, ownersPath. rewrite Hconn. split_and!.
  - intros ->. by rewrite bool_decide_eq_true_2.
  - intros e0 -> Hne. by rewrite bool_decide_eq_false_2.
  - intros names name -> Hin Hid.
    destruct (owners_stray zkConn
                (ZooKeeper_Chroot (cfg a1) ++ "/consumers/" ++ group ++ "/owners/" ++ topic)
                names ∅ name Hin Hid) as [e ->].
    exists e. split; [done|]. apply assertIface_ErrInvalidParam.
Qed.

(** C6, on a tree whose ownership node has the child [abc]: the error of
    the failed conversion passes for the NotFound kind. *)
Lemma GetTopicConsumers_error_kinds_witness :
  ∃ e, GetTopicConsumers (Scenario.world_over (Scenario.conn Scenario.tree_stray))
         Scenario.admin "g1" "orders"
       = (Scenario.admin_zk (Scenario.conn Scenario.tree_stray), (None, Some e)) ∧
       assertIface (Some e) ErrInvalidParam = true.
Proof.
  destruct (GetTopicConsumers_error_kinds
              (Scenario.world_over (Scenario.conn Scenario.tree_stray))
              Scenario.admin "g1" "orders"
              (Scenario.admin_zk (Scenario.conn Scenario.tree_stray))
              (Scenario.conn Scenario.tree_stray) eq_refl) as (_ & _ & Hstray).
  apply (Hstray ["0"; "abc"] "abc").
  - vm_compute. reflexivity.
  - right. left.
  - reflexivity.
Defined.

(** ** GetAllTopicConsumers *)

(** C3. Once the groups are listed, [GetAllTopicConsumers] returns a map
    and no error, whatever the scans of the groups return: the assertion
    [err.(ErrInvalidParam)] holds of every error, so every failed scan is
    skipped and none aborts the scan of the cluster. *)
Theorem GetAllTopicConsumers_never_aborts {S} (w : World S) (a : T) (topic : string)
    a1 kzConn groups :
  lazyZKConn w a = (a1, ok kzConn) →
  ZK.Children kzConn (ZooKeeper_Chroot (cfg a1) ++ "/consumers") = ok groups →
  ∃ a' consumers, GetAllTopicConsumers w a topic = (a', (Some consumers, None)).
Proof.
  intros Hconn Hgroups. unfold GetAllTopicConsumers. rewrite Hconn, Hgroups.
  destruct (scanGroups_continues w a1 topic groups ∅) as (a' & consumers & ->).
  by exists a', consumers.
Qed.

(** C3, on a tree store that lists the group [g1] and then loses its
    connection: the scan of [g1] fails with a wrapped connection error, and
    the scan of the cluster returns an empty map and no error. *)
Lemma GetAllTopicConsumers_never_aborts_witness :
  GetTopicConsumers (Scenario.world_over Scenario.conn_closing)
    (Scenario.admin_zk Scenario.conn_closing) "g1" "orders"
  = (Scenario.admin_zk Scenario.conn_closing,
     (None, Some (withStack (errorString "zk: connection closed")
                    "failed to fetch partition owners data" [])))
  ∧ ∃ a' consumers,
      GetAllTopicConsumers (Scenario.world_over Scenario.conn_closing) Scenario.admin "orders"
      = (a', (Some consumers, None)).
Proof.
  split; [vm_compute; reflexivity|].
  apply (GetAllTopicConsumers_never_aborts (Scenario.world_over Scenario.conn_closing)
           Scenario.admin "orders" (Scenario.admin_zk Scenario.conn_closing)
           Scenario.conn_closing ["g1"]).
  - reflexivity.
  - reflexivity.
Defined.

(** ** The content of the array of GetGroupOffsets *)

Section Buckets.

Lemma distribute_leader clt topic i partitions m m' :
  distribute clt topic i partitions m = inl m' →
  (∀ b bucket xp, m !! b = Some bucket → xp ∈ bucket →
                  Leader clt topic (partition xp) = ok b) →
  ∀ b bucket xp, m' !! b = Some bucket → xp ∈ bucket →
                 Leader clt topic (partition xp) = ok b.
Proof.
  revert i m. induction partitions as [|p partitions IH]; intros i m Hd Hm; simpl in Hd.
  - by injection Hd as <-.
  - destruct (Leader clt topic p) as [broker|e] eqn:Hl; [|done].
    apply (IH _ _ Hd). intros b bucket xp. rewrite lookup_insert.
    case_decide as Hb; [subst b|by apply Hm].
    intros [= <-] [Hin| ->%list_elem_of_singleton]%elem_of_app; [|done].
    destruct (m !! broker) as [old|] eqn:Hold; [by eapply Hm|by apply elem_of_nil in Hin].
Qed.

Lemma distribute_ordered clt topic i partitions m m' :
  distribute clt topic i partitions m = inl m' →
  (∀ b bucket, m !! b = Some bucket →
     bucket ≠ [] ∧ Sorted lt (index <$> bucket) ∧ Forall (λ xp, index xp < i)%nat bucket) →
  ∀ b bucket, m' !! b = Some bucket → bucket ≠ [] ∧ Sorted lt (index <$> bucket).
Proof.
  revert i m. induction partitions as [|p partitions IH]; intros i m Hd Hm; simpl in Hd.
  - injection Hd as <-. intros b bucket Hb. destruct (Hm b bucket Hb) as (? & ? & _). done.
  - destruct (Leader clt topic p) as [broker|e] eqn:Hl; [|done].
    apply (IH _ _ Hd). intros b bucket. rewrite lookup_insert.
    case_decide as Hb; [subst b|].
    + intros [= <-]. split_and!.
      * by destruct (default [] _).
      * rewrite fmap_app. simpl. destruct (m !! broker) as [old|] eqn:Hold; simpl.
        -- destruct (Hm _ _ Hold) as (_ & Hs & Hlt). apply Sorted_snoc; [done|].
           destruct old as [|xp old _] using rev_ind; [constructor|].
           rewrite fmap_app. simpl. constructor.
           apply Forall_app in Hlt as [_ Hlt]. apply Forall_inv in Hlt.
           simpl. exact Hlt.
        -- repeat constructor.
      * apply Forall_app. split.
        -- destruct (m !! broker) as [old|] eqn:Hold; simpl; [|constructor].
           destruct (Hm _ _ Hold) as (_ & _ & Hlt).
           eapply Forall_impl; [exact Hlt|]. simpl. lia.
        -- apply Forall_singleton. simpl. lia.
    + intros Hbk. destruct (Hm _ _ Hbk) as (? & ? & Hlt). split_and!; [done..|].
      eapply Forall_impl; [exact Hlt|]. simpl. lia.
Qed.

End Buckets.

(** X6. The buckets of [brokerToPartitions] are never empty and list
    their partitions by increasing index; the bucket of a broker holds
    exactly the partitions of the list that the broker leads, each with
    its index in the list. *)
Theorem distribute_buckets (clt : Client) (topic : string) (partitions : list Z)
    (m : gmap Broker (list indexedPartition)) (b : Broker) (bucket : list indexedPartition) :
  distribute clt topic 0 partitions ∅ = inl m →
  m !! b = Some bucket →
  bucket ≠ [] ∧
  Sorted lt (index <$> bucket) ∧
  ∀ xp, xp ∈ bucket ↔
        partitions !! index xp = Some (partition xp) ∧
        Leader clt topic (partition xp) = ok b.
Proof.
  intros Hd Hb.
  destruct (distribute_ordered _ _ _ _ _ _ Hd) with (b := b) (bucket := bucket)
    as [Hne Hs]; [by intros ? ?; rewrite lookup_empty|done|].
  split_and!; [done..|]. intros xp. split.
  - intros Hin. split.
    + assert (held m xp) as Hh by (by exists b, bucket).
      apply (distribute_held _ _ _ _ _ _ Hd) in Hh as [Hh|(j & Hj & ->)]; [|done].
      by apply held_empty in Hh.
    + eapply (distribute_leader _ _ _ _ _ _ Hd); [|done..].
      intros ? ? ?. by rewrite lookup_empty.
  - intros [Hp Hl].
    assert (held m xp) as (b' & bucket' & Hb' & Hin).
    { apply (distribute_held _ _ _ _ _ _ Hd). right. by exists (index xp). }
    assert (Leader clt topic (partition xp) = ok b') as Hl'.
    { eapply (distribute_leader _ _ _ _ _ _ Hd); [|done..].
      intros ? ? ?. by rewrite lookup_empty. }
    rewrite Hl in Hl'. injection Hl' as <-. rewrite Hb in Hb'. by injection Hb' as <-.
Qed.

(** X6, on the cluster of the scenario: broker 1 leads partitions 0 and
    2. *)
Lemma distribute_buckets_witness :
  [{| index := 0; partition := 0 |}; {| index := 2; partition := 2 |}] ≠ [] ∧
  Sorted lt (index <$> [{| index := 0; partition := 0 |}; {| index := 2; partition := 2 |}]) ∧
  ∀ xp, xp ∈ [{| index := 0; partition := 0 |}; {| index := 2; partition := 2 |}] ↔
        [0; 1; 2] !! index xp = Some (partition xp) ∧
        Leader Scenario.client "orders" (partition xp) = ok 1%nat.
Proof.
  apply (distribute_buckets Scenario.client "orders" [0; 1; 2]
           (<[2%nat := [{| index := 1; partition := 1 |}]]>
              (<[1%nat := [{| index := 0; partition := 0 |};
                           {| index := 2; partition := 2 |}]]> ∅))).
  - vm_compute. reflexivity.
  - vm_compute. reflexivity.
Defined.

Section Ranges.

Context {S : Type} (w : World S).

Lemma getField_setField f g v po :
  getField f (setField g v po) = if decide (g = f) then v else getField f po.
Proof. by destruct f, g. Qed.

(** *** What the stores of a fetcher write *)

Lemma fetchRanges_Store_value broker topic resOldest resNewest bucket i f v :
  Store i f v ∈ fetchRanges w broker topic resOldest resNewest bucket →
  ∃ xp begin end_,
    xp ∈ bucket ∧ i = index xp ∧
    getOffsetResult resOldest topic (partition xp) = ok begin ∧
    getOffsetResult resNewest topic (partition xp) = ok end_ ∧
    v = fieldOf f (partition xp) (begin, end_).
Proof.
  induction bucket as [|xp bucket IH]; simpl; [by intros ?%elem_of_nil|].
  destruct (getOffsetResult resOldest _ _) as [begin|] eqn:Ho;
    [|by intros ?%list_elem_of_singleton].
  destruct (getOffsetResult resNewest _ _) as [end_|] eqn:Hn;
    [|by intros ?%list_elem_of_singleton].
  rewrite !elem_of_cons. intros [Heq|[Heq|[Heq|Hin]]].
  1-3: injection Heq as -> -> ->; exists xp, begin, end_; split_and!; try done; left.
  destruct (IH Hin) as (xp' & b' & e' & ? & ?). exists xp', b', e'. split; [by right|done].
Qed.

Lemma fetchRanges_value_Store broker topic resOldest resNewest bucket xp begin end_ f :
  (∀ e, Send e ∉ fetchRanges w broker topic resOldest resNewest bucket) →
  xp ∈ bucket →
  getOffsetResult resOldest topic (partition xp) = ok begin →
  getOffsetResult resNewest topic (partition xp) = ok end_ →
  Store (index xp) f (fieldOf f (partition xp) (begin, end_))
    ∈ fetchRanges w broker topic resOldest resNewest bucket.
Proof.
  intros Hquiet Hin Ho Hn. induction bucket as [|xp' bucket IH];
    [by apply elem_of_nil in Hin|].
  simpl in *.
  destruct (getOffsetResult resOldest topic (partition xp')) as [begin'|] eqn:Ho';
    [|exfalso; eapply Hquiet; left].
  destruct (getOffsetResult resNewest topic (partition xp')) as [end'|] eqn:Hn';
    [|exfalso; eapply Hquiet; left].
  apply elem_of_cons in Hin as [->|Hin].
  - rewrite Ho in Ho'. rewrite Hn in Hn'. injection Ho' as <-. injection Hn' as <-.
    destruct f; simpl; [left|right; left|right; right; left].
  - do 3 right. apply IH; [|done]. intros e He. apply (Hquiet e). by do 3 right.
Qed.

Lemma offsetFetcher_Store_value topic b bucket i f v :
  Store i f v ∈ offsetFetcher w topic b bucket
                  (offsetRequest topic OffsetOldest bucket)
                  (offsetRequest topic OffsetNewest bucket) →
  ∃ xp range, xp ∈ bucket ∧ i = index xp ∧
              reading w topic b bucket (partition xp) = Some range ∧
              v = fieldOf f (partition xp) range.
Proof.
  unfold offsetFetcher, reading.
  destruct (GetAvailableOffsets w b (offsetRequest topic OffsetOldest bucket));
    [|by intros ?%list_elem_of_singleton].
  destruct (GetAvailableOffsets w b (offsetRequest topic OffsetNewest bucket));
    [|by intros ?%list_elem_of_singleton].
  intros (xp & begin & end_ & Hin & -> & Ho & Hn & ->)%fetchRanges_Store_value.
  exists xp, (begin, end_). by rewrite Ho, Hn.
Qed.

Lemma offsetFetcher_value_Store topic b bucket xp range f :
  (∀ e, Send e ∉ offsetFetcher w topic b bucket
                   (offsetRequest topic OffsetOldest bucket)
                   (offsetRequest topic OffsetNewest bucket)) →
  xp ∈ bucket →
  reading w topic b bucket (partition xp) = Some range →
  Store (index xp) f (fieldOf f (partition xp) range)
    ∈ offsetFetcher w topic b bucket
        (offsetRequest topic OffsetOldest bucket)
        (offsetRequest topic OffsetNewest bucket).
Proof.
  unfold offsetFetcher, reading.
  destruct (GetAvailableOffsets w b (offsetRequest topic OffsetOldest bucket))
    as [resOldest|]; [|done].
  destruct (GetAvailableOffsets w b (offsetRequest topic OffsetNewest bucket))
    as [resNewest|]; [|done].
  intros Hquiet Hin Hr.
  destruct (getOffsetResult resOldest topic (partition xp)) as [begin|] eqn:Ho; [|done].
  destruct (getOffsetResult resNewest topic (partition xp)) as [end_|] eqn:Hn; [|done].
  injection Hr as <-. by apply fetchRanges_value_Store.
Qed.

(** A fetcher sends an error exactly when the query of its bucket fails,
    and the error names its broker. *)
Lemma reading_None topic b bucket xp :
  xp ∈ bucket → reading w topic b bucket (partition xp) = None →
  queryFails w topic b bucket.
Proof.
  unfold reading. intros Hin.
  destruct (GetAvailableOffsets w b (offsetRequest topic OffsetOldest bucket))
    as [resOldest|e] eqn:Hro; [|intros _; by eapply oldest_transport].
  destruct (GetAvailableOffsets w b (offsetRequest topic OffsetNewest bucket))
    as [resNewest|e] eqn:Hrn; [|intros _; by eapply newest_transport].
  destruct (getOffsetResult resOldest topic (partition xp)) as [begin|e] eqn:Ho.
  - destruct (getOffsetResult resNewest topic (partition xp)) as [end_|e] eqn:Hn; [done|].
    intros _. eapply newest_block; [done..|]. apply getOffsetResult_fail. eauto.
  - intros _. eapply oldest_block; [done..|]. apply getOffsetResult_fail. eauto.
Qed.

Lemma fetchRanges_Send_inv b topic resOldest resNewest bucket e :
  Send e ∈ fetchRanges w b topic resOldest resNewest bucket →
  fetchFailure w b e ∧
  ∃ xp, xp ∈ bucket ∧
        (blockFails resOldest topic (partition xp) ∨ blockFails resNewest topic (partition xp)).
Proof.
  induction bucket as [|xp bucket IH]; simpl; [by intros ?%elem_of_nil|].
  destruct (getOffsetResult resOldest _ _) as [begin|e1] eqn:Ho.
  2:{ intros [= ->]%list_elem_of_singleton. split; [eexists; by left|].
      exists xp. split; [left|]. left. apply getOffsetResult_fail. eauto. }
  destruct (getOffsetResult resNewest _ _) as [end_|e2] eqn:Hn.
  2:{ intros [= ->]%list_elem_of_singleton. split; [eexists; by right|].
      exists xp. split; [left|]. right. apply getOffsetResult_fail. eauto. }
  rewrite !elem_of_cons. intros [?|[?|[?|Hin]]]; try done.
  destruct (IH Hin) as (? & xp' & ? & ?). split; [done|]. exists xp'. split; [by right|done].
Qed.

Lemma offsetFetcher_Send_inv topic b bucket e :
  Send e ∈ offsetFetcher w topic b bucket
             (offsetRequest topic OffsetOldest bucket)
             (offsetRequest topic OffsetNewest bucket) →
  fetchFailure w b e ∧ queryFails w topic b bucket.
Proof.
  unfold offsetFetcher.
  destruct (GetAvailableOffsets w b (offsetRequest topic OffsetOldest bucket))
    as [resOldest|e1] eqn:Hro.
  2:{ intros [= ->]%list_elem_of_singleton. split; [eexists; by left|].
      by eapply oldest_transport. }
  destruct (GetAvailableOffsets w b (offsetRequest topic OffsetNewest bucket))
    as [resNewest|e2] eqn:Hrn.
  2:{ intros [= ->]%list_elem_of_singleton. split; [eexists; by right|].
      by eapply newest_transport. }
  intros (Hf & xp & Hin & [Hb|Hb])%fetchRanges_Send_inv; (split; [done|]).
  - by eapply oldest_block.
  - by eapply newest_block.
Qed.

(** *** The invariant of all the fields *)

Section Filled.

Variable R : nat → field → Z → Prop.
Variable n : nat.
Hypothesis R_fun : ∀ i f v v', R i f v → R i f v' → v = v'.
Hypothesis R_lt : ∀ i f v, R i f v → (i < n)%nat.

Lemma filled_exec s x pending pending' :
  (∀ y, y ∈ pending ↔ y = x ∨ y ∈ pending') →
  filled R n s pending → filled R n (exec x s) pending'.
Proof.
  intros Hpend (Hlen & Hzero & Hcons & Hcov). split_and!.
  - destruct x; simpl; [by rewrite length_alter|done].
  - destruct x as [j g u|e]; simpl; [|done].
    intros po [i Hi]%list_elem_of_lookup. rewrite list_lookup_alter in Hi.
    case_decide; [|apply Hzero; by eapply list_elem_of_lookup_2].
    destruct (offsets s !! j) as [po'|] eqn:Hj; [|done]. injection Hi as <-.
    destruct (Hzero po') as [? ?]; [by eapply list_elem_of_lookup_2|]. by destruct g.
  - intros i f v Hin. apply Hcons, Hpend. by right.
  - intros i f v HR.
    assert (is_Some (offsets s !! i)) as [po Hpo].
    { apply lookup_lt_is_Some. rewrite Hlen. by eapply R_lt. }
    destruct (Hcov i f v HR) as [Hl|Hr].
    + left. rewrite Hpo in Hl. injection Hl as Hl.
      destruct x as [j g u|e]; simpl; [|by rewrite Hpo; simpl; f_equal].
      destruct (decide (j = i)) as [->|Hne];
        [|by rewrite list_lookup_alter_ne, Hpo by done; simpl; f_equal].
      rewrite list_lookup_alter_eq, Hpo. simpl. rewrite getField_setField.
      case_decide as Hf; [subst g|by f_equal].
      f_equal. apply (R_fun i f); [|done]. apply Hcons, Hpend. by left.
    + apply Hpend in Hr as [<-|Hr]; [|by right].
      left. simpl. rewrite list_lookup_alter_eq, Hpo. simpl. rewrite getField_setField.
      by rewrite decide_True.
Qed.

(** Two arrays that the stores have filled are the same array. *)
Lemma filled_unique s s' :
  (∀ i, (i < n)%nat → ∀ f, ∃ v, R i f v) →
  filled R n s [] → filled R n s' [] → offsets s = offsets s'.
Proof.
  intros Htotal (Hlen & Hzero & _ & Hcov) (Hlen' & Hzero' & _ & Hcov').
  apply list_eq. intros i. destruct (decide (i < n)%nat) as [Hi|Hi].
  - destruct (lookup_lt_is_Some_2 (offsets s) i) as [po Hpo]; [lia|].
    destruct (lookup_lt_is_Some_2 (offsets s') i) as [po' Hpo']; [lia|].
    rewrite Hpo, Hpo'. f_equal.
    assert (∀ f, getField f po = getField f po') as Hf.
    { intros f. destruct (Htotal i Hi f) as [v Hv].
      destruct (Hcov i f v Hv) as [Hl|Hl]; [|by apply elem_of_nil in Hl].
      destruct (Hcov' i f v Hv) as [Hl'|Hl']; [|by apply elem_of_nil in Hl'].
      rewrite Hpo in Hl. rewrite Hpo' in Hl'. simpl in *. congruence. }
    destruct (Hzero po) as [Ho Hm]; [by eapply list_elem_of_lookup_2|].
    destruct (Hzero' po') as [Ho' Hm']; [by eapply list_elem_of_lookup_2|].
    pose proof (Hf FPartition). pose proof (Hf FBegin). pose proof (Hf FEnd).
    destruct po, po'. simpl in *. congruence.
  - rewrite !(proj2 (lookup_ge_None _ _)); [done|lia..].
Qed.

End Filled.

Lemma quiet_exec s x pending pending' :
  (∀ y, y ∈ pending ↔ y = x ∨ y ∈ pending') →
  quiet s pending → quiet (exec x s) pending'.
Proof.
  intros Hpend [Hch Hnone]. split.
  - destruct x as [|e]; simpl; [done|]. exfalso. apply (Hnone e), Hpend. by left.
  - intros e He. apply (Hnone e), Hpend. by right.
Qed.


(** No error in the channel after [Wait] means that no goroutine had one
    to send, and conversely. *)
Lemma Wait_no_Send sched tasks offsets0 :
  errorsCh (Wait sched tasks {| offsets := offsets0; errorsCh := [] |}) = [] →
  ∀ e, Send e ∉ concat tasks.
Proof.
  intros Hch e He.
  assert (raised (Wait sched tasks {| offsets := offsets0; errorsCh := [] |}) [])
    as [Hne|[? Hin]].
  { apply (Wait_inv raised raised_exec). right. by exists e. }
  - done.
  - by apply elem_of_nil in Hin.
Qed.

Lemma Wait_quiet sched tasks offsets0 :
  (∀ e, Send e ∉ concat tasks) →
  errorsCh (Wait sched tasks {| offsets := offsets0; errorsCh := [] |}) = [].
Proof.
  intros Hnone.
  by destruct (Wait_inv quiet quiet_exec sched tasks
                 {| offsets := offsets0; errorsCh := [] |}) as [? _].
Qed.

(** *** The values the fields are to receive *)

Section Expected.

Variables (clt : Client) (topic : string) (partitions : list Z).
Variable m : gmap Broker (list indexedPartition).
Hypothesis Hd : distribute clt topic 0 partitions ∅ = inl m.

Lemma held_leader b bucket xp :
  m !! b = Some bucket → xp ∈ bucket → Leader clt topic (partition xp) = ok b.
Proof.
  eapply (distribute_leader _ _ _ _ _ _ Hd). intros ? ? ?. by rewrite lookup_empty.
Qed.

Lemma held_position b bucket xp :
  m !! b = Some bucket → xp ∈ bucket → partitions !! index xp = Some (partition xp).
Proof.
  intros Hb Hin. assert (held m xp) as Hh by (by exists b, bucket).
  apply (distribute_held _ _ _ _ _ _ Hd) in Hh as [Hh|(j & Hj & ->)]; [|done].
  by apply held_empty in Hh.
Qed.

Lemma position_held i p :
  partitions !! i = Some p →
  ∃ b bucket, m !! b = Some bucket ∧ {| index := i; partition := p |} ∈ bucket.
Proof. intros Hi. apply (distribute_held _ _ _ _ _ _ Hd). right. by exists i. Qed.

Lemma expected_fun i f v v' :
  expected w topic partitions m i f v → expected w topic partitions m i f v' → v = v'.
Proof.
  intros (p & b & bucket & range & Hp & Hb & Hin & Hr & ->)
         (p' & b' & bucket' & range' & Hp' & Hb' & Hin' & Hr' & ->).
  rewrite Hp in Hp'. injection Hp' as <-.
  pose proof (held_leader _ _ _ Hb Hin) as Hl.
  pose proof (held_leader _ _ _ Hb' Hin') as Hl'. simpl in *.
  rewrite Hl in Hl'. injection Hl' as <-. rewrite Hb in Hb'. injection Hb' as <-.
  rewrite Hr in Hr'. by injection Hr' as <-.
Qed.

Lemma expected_lt i f v :
  expected w topic partitions m i f v → (i < length partitions)%nat.
Proof. intros (p & _ & _ & _ & Hp & _). by eapply lookup_lt_Some. Qed.

Lemma filled_init seed :
  (∀ e, Send e ∉ concat (spawnFetchers w seed topic m)) →
  filled (expected w topic partitions m) (length partitions)
    {| offsets := replicate (length partitions) zeroPartitionOffset; errorsCh := [] |}
    (concat (spawnFetchers w seed topic m)).
Proof.
  intros Hnone. split_and!.
  - simpl. by rewrite length_replicate.
  - simpl. by intros po [-> _]%elem_of_replicate.
  - intros i f v (b & bucket & Hb & Hin)%elem_of_spawnFetchers.
    apply offsetFetcher_Store_value in Hin as (xp & range & Hxp & -> & Hr & ->).
    exists (partition xp), b, bucket, range. split_and!; [|done| |done..].
    + by eapply held_position.
    + by destruct xp.
  - intros i f v (p & b & bucket & range & Hp & Hb & Hin & Hr & ->). right.
    apply elem_of_spawnFetchers. exists b, bucket. split; [done|].
    apply (offsetFetcher_value_Store topic b bucket {| index := i; partition := p |});
      [|done..].
    intros e He. apply (Hnone e), elem_of_spawnFetchers. by exists b, bucket.
Qed.

Lemma expected_total seed i f :
  (∀ e, Send e ∉ concat (spawnFetchers w seed topic m)) →
  (i < length partitions)%nat →
  ∃ v, expected w topic partitions m i f v.
Proof.
  intros Hnone Hi. destruct (lookup_lt_is_Some_2 partitions i Hi) as [p Hp].
  destruct (position_held i p Hp) as (b & bucket & Hb & Hin).
  destruct (reading w topic b bucket p) as [range|] eqn:Hr.
  - exists (fieldOf f p range), p, b, bucket, range. done.
  - exfalso.
    destruct (queryFails_Send w topic b bucket) as [e He].
    { by apply (reading_None topic b bucket {| index := i; partition := p |}). }
    apply (Hnone e), elem_of_spawnFetchers. by exists b, bucket.
Qed.

Lemma Wait_filled seed sched :
  (∀ e, Send e ∉ concat (spawnFetchers w seed topic m)) →
  filled (expected w topic partitions m) (length partitions)
    (Wait sched (spawnFetchers w seed topic m)
       {| offsets := replicate (length partitions) zeroPartitionOffset; errorsCh := [] |})
    [].
Proof.
  intros Hnone.
  apply (Wait_inv _ (filled_exec _ _ expected_fun expected_lt)). by apply filled_init.
Qed.

(** Whether a fetcher has an error to send does not depend on the order
    in which the fetchers were spawned. *)
Lemma no_Send_seed seed seed' :
  (∀ e, Send e ∉ concat (spawnFetchers w seed topic m)) →
  ∀ e, Send e ∉ concat (spawnFetchers w seed' topic m).
Proof.
  intros Hnone e He. apply (Hnone e). apply elem_of_spawnFetchers.
  by apply elem_of_spawnFetchers in He.
Qed.

(** With no error to send, every spawn order and every interleaving
    leaves the same array. *)
Lemma Wait_offsets_unique seed sched seed' sched' :
  (∀ e, Send e ∉ concat (spawnFetchers w seed topic m)) →
  offsets (Wait sched (spawnFetchers w seed topic m)
             {| offsets := replicate (length partitions) zeroPartitionOffset;
                errorsCh := [] |})
  = offsets (Wait sched' (spawnFetchers w seed' topic m)
               {| offsets := replicate (length partitions) zeroPartitionOffset;
                  errorsCh := [] |}).
Proof.
  intros Hnone.
  apply (filled_unique (expected w topic partitions m) (length partitions)).
  - intros i Hi f. by eapply expected_total.
  - by apply Wait_filled.
  - apply Wait_filled. by eapply no_Send_seed.
Qed.

End Expected.


Lemma fillCommitted_present res topic i partitions offs :
  (∀ p, p ∈ partitions → is_Some (OffsetFetchResponse.GetBlock res topic p)) →
  ∃ offs', fillCommitted res topic i partitions offs = inl offs'.
Proof.
  revert i offs. induction partitions as [|p partitions IH]; intros i offs Hall; simpl.
  - by eexists.
  - destruct (Hall p) as [block ->]; [left|]. apply IH. intros q Hq. apply Hall. by right.
Qed.


End Ranges.



(** X3. Whether [GetGroupOffsets] returns an array, and which array, does
    not depend on the order in which the fetchers are spawned nor on how
    they interleave. *)
Theorem GetGroupOffsets_schedule_independent {S} (w : World S) (seed sched : list nat)
    (st : S) (a : T) (group topic : string) a' offs e (seed' sched' : list nat) :
  GetGroupOffsets w seed sched st a group topic = (a', (Some offs, e)) →
  GetGroupOffsets w seed' sched' st a group topic = (a', (Some offs, e)).
Proof.
  unfold GetGroupOffsets. intros Hget.
  destruct (lazyKafkaClt w a) as [a1 [kafkaClt|e1]]; [|done].
  destruct (Partitions kafkaClt topic) as [partitions|e2] eqn:Hparts; [|done].
  destruct (distribute kafkaClt topic 0 partitions ∅) as [m|r] eqn:Hd; [|done].
  pose proof (Wait_no_Send sched (spawnFetchers w seed topic m)
                (replicate (length partitions) zeroPartitionOffset)) as Hnone.
  destruct (errorsCh (Wait sched _ _)) as [|e3 ch]; [|done].
  specialize (Hnone eq_refl).
  rewrite (Wait_quiet sched' (spawnFetchers w seed' topic m)); [|by eapply no_Send_seed].
  by rewrite <- (Wait_offsets_unique w kafkaClt topic partitions m Hd seed sched seed' sched').
Qed.

(** X3, on the cluster of the scenario: the array of the run that spawns
    the fetcher of broker 2 first and interleaves the two is the array of
    the run that does neither. *)
Lemma GetGroupOffsets_schedule_independent_witness :
  GetGroupOffsets Scenario.world [] [] [] Scenario.admin "g1" "orders"
  = (Scenario.admin_kafka,
     (Some [ {| Partition := 0; Begin := 100; End_ := 150; Offset := -1; Metadata := "" |};
             {| Partition := 1; Begin := 20; End_ := 40; Offset := -1; Metadata := "" |};
             {| Partition := 2; Begin := 300; End_ := 350; Offset := -1; Metadata := "" |} ],
      None)).
Proof.
  apply (GetGroupOffsets_schedule_independent Scenario.world [1%nat] [1; 0; 1; 1; 0]%nat).
  vm_compute. reflexivity.
Defined.



Lemma queryFails_reading {S} (w : World S) topic b bucket :
  queryFails w topic b bucket → bucket ≠ [] →
  ∃ xp, xp ∈ bucket ∧ reading w topic b bucket (partition xp) = None.
Proof.
  unfold reading. intros [e He|e He|res xp Hres Hin Hfail|res xp Hres Hin Hfail] Hne.
  - destruct bucket as [|xp bucket]; [done|]. exists xp. split; [left|]. by rewrite He.
  - destruct bucket as [|xp bucket]; [done|]. exists xp. split; [left|].
    destruct (GetAvailableOffsets w b (offsetRequest topic OffsetOldest (xp :: bucket)));
      [by rewrite He|done].
  - exists xp. split; [done|]. rewrite Hres.
    apply getOffsetResult_fail in Hfail as [e ->].
    by destruct (GetAvailableOffsets w b (offsetRequest topic OffsetNewest bucket)).
  - exists xp. split; [done|].
    destruct (GetAvailableOffsets w b (offsetRequest topic OffsetOldest bucket));
      [rewrite Hres|done].
    apply getOffsetResult_fail in Hfail as [e ->].
    by destruct (getOffsetResult _ _ _).
Qed.

(** X9. When the leaders of the partitions are found, every leader
    reports an oldest and a newest offset for each of its partitions, the
    coordinator is found and its answer has a block for every partition,
    [GetGroupOffsets] returns an array of the length of the partition list
    and no error, however the fetchers are spawned and interleave. *)
Theorem GetGroupOffsets_succeeds {S} (w : World S) (seed sched : list nat) (st : S)
    (a : T) (group topic : string) a1 kafkaClt partitions m coordinator res :
  lazyKafkaClt w a = (a1, ok kafkaClt) →
  Partitions kafkaClt topic = ok partitions →
  distribute kafkaClt topic 0 partitions ∅ = inl m →
  (∀ b bucket xp, m !! b = Some bucket → xp ∈ bucket →
                  is_Some (reading w topic b bucket (partition xp))) →
  Coordinator kafkaClt group = ok coordinator →
  FetchOffset w coordinator st (offsetFetchRequest group topic partitions) = ok res →
  (∀ p, p ∈ partitions → is_Some (OffsetFetchResponse.GetBlock res topic p)) →
  ∃ offs, GetGroupOffsets w seed sched st a group topic = (a1, (Some offs, None)) ∧
          length offs = length partitions.
Proof.
  intros Hclt Hparts Hd Hquery Hcoord Hfetch Hblocks. unfold GetGroupOffsets.
  rewrite Hclt, Hparts, Hd. simpl.
  assert (∀ e, Send e ∉ concat (spawnFetchers w seed topic m)) as Hnone.
  { intros e (b & bucket & Hb & Hin)%elem_of_spawnFetchers.
    apply offsetFetcher_Send_inv in Hin as [_ Hq].
    apply queryFails_reading in Hq as (xp & Hxp & Hr).
    - destruct (Hquery b bucket xp Hb Hxp) as [? Hsome]. by rewrite Hr in Hsome.
    - eapply (distribute_ordered _ _ _ _ _ _ Hd); [|done].
      intros ? ?. by rewrite lookup_empty. }
  rewrite (Wait_quiet sched _ _ Hnone), Hcoord, Hfetch.
  destruct (fillCommitted_present res topic 0 partitions
              (offsets (Wait sched (spawnFetchers w seed topic m)
                          {| offsets := replicate (length partitions) zeroPartitionOffset;
                             errorsCh := [] |})) Hblocks) as [offs Hfill].
  rewrite Hfill. exists offs. split; [done|].
  destruct (fillCommitted_spec _ _ _ _ _ _ Hfill) as (-> & _).
  by destruct (Wait_filled w kafkaClt topic partitions m Hd seed sched Hnone) as (-> & _).
Qed.

(** X9, on the cluster of the scenario. *)
Lemma GetGroupOffsets_succeeds_witness :
  ∃ offs, GetGroupOffsets Scenario.world [1%nat] [1; 0; 1; 1; 0]%nat [] Scenario.admin
            "g1" "orders" = (Scenario.admin_kafka, (Some offs, None)) ∧
          length offs = 3%nat.
Proof.
  apply (GetGroupOffsets_succeeds Scenario.world _ _ [] Scenario.admin "g1" "orders"
           Scenario.admin_kafka Scenario.client [0; 1; 2] Scenario.buckets 3%nat
           {| OffsetFetchResponse.Blocks :=
                {[ "orders" := list_to_map
                     ((λ p, (p, Scenario.fetched [] "g1" "orders" p)) <$> [0; 1; 2]) ]} |}).
  - reflexivity.
  - reflexivity.
  - vm_compute. reflexivity.
  - intros b bucket xp Hb Hin. unfold Scenario.buckets in Hb.
    apply lookup_insert_Some in Hb as [[<- <-]|[_ Hb]].
    { apply list_elem_of_singleton in Hin as ->. vm_compute. by eexists. }
    apply lookup_insert_Some in Hb as [[<- <-]|[_ Hb]]; [|by rewrite lookup_empty in Hb].
    apply elem_of_cons in Hin as [->|Hin]; [vm_compute; by eexists|].
    apply list_elem_of_singleton in Hin as ->. vm_compute. by eexists.
  - reflexivity.
  - vm_compute. reflexivity.
  - intros p Hp.
    repeat (apply elem_of_cons in Hp as [->|Hp]; [vm_compute; by eexists|]).
    by apply elem_of_nil in Hp.
Defined.

(** *** Failures before the fan-out, and the empty topic *)

Section Early.

Context {S : Type} (w : World S).

Lemma distribute_fail clt topic i pre p post m e :
  Forall (λ q, ∃ b, Leader clt topic q = ok b) pre →
  Leader clt topic p = fail e →
  distribute clt topic i (pre ++ p :: post) m
  = inr (None, Some (withStack e "failed to get partition leader, partition=%d" [AInt p])).
Proof.
  intros Hpre Hp. revert i m. induction Hpre as [|q pre [b Hq] _ IH]; intros i m; simpl.
  - by rewrite Hp.
  - rewrite Hq. apply IH.
Qed.

Lemma run_nil sched s : run sched [] s = (s, []).
Proof. induction sched as [|k sched IH]; [done|]. simpl. apply IH. Qed.

Lemma clearErr_GetBlock res topic p :
  OffsetFetchResponse.GetBlock (clearErr res) topic p
  = (λ block,
       {| OffsetFetchResponse.Offset := OffsetFetchResponse.Offset block;
          OffsetFetchResponse.Metadata := OffsetFetchResponse.Metadata block;
          OffsetFetchResponse.Err := ErrNoError |})
      <$> OffsetFetchResponse.GetBlock res topic p.
Proof.
  unfold OffsetFetchResponse.GetBlock, clearErr. simpl. rewrite lookup_fmap.
  destruct (OffsetFetchResponse.Blocks res !! topic) as [ps|]; [|done].
  simpl. by rewrite lookup_fmap.
Qed.

Lemma fillCommitted_clearErr res topic i partitions offs :
  fillCommitted (clearErr res) topic i partitions offs
  = fillCommitted res topic i partitions offs.
Proof.
  revert i offs. induction partitions as [|p partitions IH]; intros i offs; simpl; [done|].
  rewrite clearErr_GetBlock.
  destruct (OffsetFetchResponse.GetBlock res topic p) as [block|]; [|done].
  simpl. apply IH.
Qed.

End Early.

(** X7. When the leader of a partition is not found, [GetGroupOffsets]
    returns nil and the error of the first such partition of the list,
    wrapped with the id of that partition. *)
Theorem GetGroupOffsets_leader_failure {S} (w : World S) (seed sched : list nat) (st : S)
    (a : T) (group topic : string) a1 kafkaClt pre p post e :
  lazyKafkaClt w a = (a1, ok kafkaClt) →
  Partitions kafkaClt topic = ok (pre ++ p :: post)%list →
  Forall (λ q, ∃ b, Leader kafkaClt topic q = ok b) pre →
  Leader kafkaClt topic p = fail e →
  GetGroupOffsets w seed sched st a group topic
  = (a1, (None, Some (withStack e "failed to get partition leader, partition=%d" [AInt p]))).
Proof.
  intros Hclt Hparts Hpre Hp. unfold GetGroupOffsets. rewrite Hclt, Hparts.
  by rewrite (distribute_fail _ _ _ _ _ _ _ e Hpre Hp).
Qed.

(** X8. For a topic with no partition, [GetGroupOffsets] queries no
    broker for offsets but still asks the coordinator: it returns an empty
    array and no error when the coordinator answers, whatever the answer
    holds, and the wrapped error of the coordinator otherwise. *)
Theorem GetGroupOffsets_no_partition {S} (w : World S) (seed sched : list nat) (st : S)
    (a : T) (group topic : string) a1 kafkaClt :
  lazyKafkaClt w a = (a1, ok kafkaClt) →
  Partitions kafkaClt topic = ok [] →
  spawnFetchers w seed topic ∅ = [] ∧
  GetGroupOffsets w seed sched st a group topic
  = (a1,
     match Coordinator kafkaClt group with
     | fail e => (None, Some (withStack e "failed to get coordinator" []))
     | ok coordinator =>
         match FetchOffset w coordinator st (offsetFetchRequest group topic []) with
         | fail e => (None, Some (withStack e "failed to fetch offsets" []))
         | ok _ => (Some [], None)
         end
     end).
Proof.
  intros Hclt Hparts. split; [done|]. unfold GetGroupOffsets. rewrite Hclt, Hparts. simpl.
  unfold Wait. change (spawnFetchers w seed topic ∅) with ([] : list (list action)).
  rewrite run_nil. simpl.
  destruct (Coordinator kafkaClt group) as [coordinator|e]; [|done].
  by destruct (FetchOffset w coordinator st _).
Qed.

(** X2. [GetGroupOffsets] does not read the error code of the blocks of
    the answer of the coordinator: with every code set to [ErrNoError] the
    outcome is the same. *)
Theorem GetGroupOffsets_ignores_fetch_codes {S} (w : World S) (seed sched : list nat)
    (st : S) (a : T) (group topic : string) :
  GetGroupOffsets (withClearedErr w) seed sched st a group topic
  = GetGroupOffsets w seed sched st a group topic.
Proof.
  unfold GetGroupOffsets.
  change (lazyKafkaClt (withClearedErr w) a) with (lazyKafkaClt w a).
  destruct (lazyKafkaClt w a) as [a1 [kafkaClt|e1]]; [|done]. f_equal.
  destruct (Partitions kafkaClt topic) as [partitions|e2]; [|done].
  destruct (distribute kafkaClt topic 0 partitions ∅) as [m|r]; [|done].
  change (spawnFetchers (withClearedErr w) seed topic m) with (spawnFetchers w seed topic m).
  destruct (errorsCh _) as [|e3 ch]; [|done].
  destruct (Coordinator kafkaClt group) as [coordinator|e4]; [|done].
  change (FetchOffset (withClearedErr w) coordinator st
            (offsetFetchRequest group topic partitions))
    with (match FetchOffset w coordinator st (offsetFetchRequest group topic partitions) with
          | ok res => ok (clearErr res)
          | fail e => fail e
          end).
  destruct (FetchOffset w coordinator st _) as [res|e5]; [|done].
  by rewrite fillCommitted_clearErr.
Qed.

(** X7, with a cluster client that finds the leader of partition 0 and
    not that of partition 1. *)
Lemma GetGroupOffsets_leader_failure_witness :
  GetGroupOffsets Scenario.world [] [] [] (Scenario.admin_with Scenario.client_lost)
    "g1" "orders"
  = (Scenario.admin_with Scenario.client_lost,
     (None, Some (withStack (KError 5) "failed to get partition leader, partition=%d"
                    [AInt 1]))).
Proof.
  apply (GetGroupOffsets_leader_failure Scenario.world [] [] []
           (Scenario.admin_with Scenario.client_lost) "g1" "orders"
           (Scenario.admin_with Scenario.client_lost) Scenario.client_lost [0] 1 [2]).
  - reflexivity.
  - reflexivity.
  - constructor; [|constructor]. by exists 1%nat.
  - reflexivity.
Defined.

(** X8, with a cluster client that finds no partition. *)
Lemma GetGroupOffsets_no_partition_witness :
  spawnFetchers Scenario.world [] "orders" ∅ = [] ∧
  GetGroupOffsets Scenario.world [] [] [] (Scenario.admin_with Scenario.client_bare)
    "g1" "orders"
  = (Scenario.admin_with Scenario.client_bare, (Some [], None)).
Proof.
  apply (GetGroupOffsets_no_partition Scenario.world [] [] []
           (Scenario.admin_with Scenario.client_bare) "g1" "orders"
           (Scenario.admin_with Scenario.client_bare) Scenario.client_bare).
  - reflexivity.
  - reflexivity.
Defined.

(** ** The requests *)

(** X5. The request that a fetcher sends to its broker has a block for
    exactly the partitions of the bucket of the broker, under the topic
    alone, and every block asks for one offset at the time of the
    request. *)
Theorem offsetRequest_blocks (topic : string) (time : Z) (bucket : list indexedPartition)
    (topic' : string) (p : Z) :
  OffsetRequest.blocks (offsetRequest topic time bucket) !! topic' ≫= (λ ps, ps !! p)
  = if bool_decide (topic' = topic ∧ p ∈ partition <$> bucket)
    then Some {| OffsetRequest.time := time; OffsetRequest.maxOffsets := 1 |}
    else None.
Proof.
  unfold offsetRequest. induction bucket as [|xp bucket IH] using rev_ind.
  - simpl. rewrite lookup_empty. simpl. rewrite bool_decide_eq_false_2; [done|].
    intros [_ ?%elem_of_nil]. done.
  - rewrite foldl_snoc. simpl. rewrite fmap_app. simpl.
    destruct (decide (topic' = topic)) as [->|Hne].
    + rewrite lookup_insert_eq. simpl. destruct (decide (p = partition xp)) as [->|Hp].
      * rewrite lookup_insert_eq, bool_decide_eq_true_2; [done|].
        split; [done|]. apply elem_of_app. right. left.
      * rewrite lookup_insert_ne by done.
        replace (default ∅ (OffsetRequest.blocks (foldl _ OffsetRequest.zero bucket) !! topic)
                   !! p)
          with (OffsetRequest.blocks
                  (foldl (λ req p0, OffsetRequest.AddBlock req topic (partition p0) time 1)
                     OffsetRequest.zero bucket) !! topic ≫= (λ ps, ps !! p))
          by (by destruct (OffsetRequest.blocks _ !! topic)).
        rewrite IH.
        rewrite (bool_decide_ext (topic = topic ∧ p ∈ partition <$> bucket)
                   (topic = topic ∧ p ∈ ((partition <$> bucket) ++ [partition xp])%list));
          [done|].
        rewrite elem_of_app, list_elem_of_singleton. tauto.
    + rewrite lookup_insert_ne by done. rewrite IH.
      rewrite !bool_decide_eq_false_2; [done|tauto..].
Qed.

(** X10. The request that [SetGroupOffsets] sends carries the group,
    version 1 and an undefined generation; it has blocks under the topic
    alone, one for each partition that [offsets] names, with the offset
    and metadata of the last record for the partition and the timestamp
    [ReceiveTime]. *)
Theorem offsetCommitRequest_content (group topic : string) (records : list PartitionOffset)
    (topic' : string) (p : Z) :
  let req := offsetCommitRequest group topic records in
  OffsetCommitRequest.ConsumerGroup req = group ∧
  OffsetCommitRequest.Version req = 1 ∧
  OffsetCommitRequest.ConsumerGroupGeneration req = -1 ∧
  OffsetCommitRequest.blocks req !! topic' ≫= (λ ps, ps !! p)
  = if bool_decide (topic' = topic)
    then (λ r, {| OffsetCommitRequest.offset := Offset r;
                  OffsetCommitRequest.timestamp := -1;
                  OffsetCommitRequest.metadata := Metadata r |}) <$> lastFor p records
    else None.
Proof.
  simpl. split_and!.
  - apply offsetCommitRequest_group.
  - induction records as [|r records IH] using rev_ind; [done|].
    by rewrite offsetCommitRequest_snoc.
  - induction records as [|r records IH] using rev_ind; [done|].
    by rewrite offsetCommitRequest_snoc.
  - case_bool_decide as Ht; [subst; apply offsetCommitRequest_blocks|].
    induction records as [|r records IH] using rev_ind.
    { unfold offsetCommitRequest. simpl. by rewrite lookup_empty. }
    rewrite offsetCommitRequest_snoc. simpl. by rewrite lookup_insert_ne.
Qed.

(** X12. The request that [GetGroupOffsets] sends to the coordinator
    carries the group and version 1 and lists, under the topic alone, the
    partitions in the order of the partition list. *)
Theorem offsetFetchRequest_content (group topic : string) (partitions : list Z)
    (topic' : string) :
  let req := offsetFetchRequest group topic partitions in
  OffsetFetchRequest.ConsumerGroup req = group ∧
  OffsetFetchRequest.Version req = 1 ∧
  default [] (OffsetFetchRequest.partitions req !! topic')
  = if bool_decide (topic' = topic) then partitions else [].
Proof.
  simpl. unfold offsetFetchRequest.
  induction partitions as [|p partitions (Hg & Hv & Hp)] using rev_ind.
  - simpl. rewrite lookup_empty. by case_bool_decide.
  - rewrite foldl_snoc. simpl. split_and!; [done..|].
    case_bool_decide as Ht.
    + subst. rewrite lookup_insert_eq. simpl. by rewrite Hp.
    + by rewrite lookup_insert_ne by done.
Qed.

(** ** The outcome of SetGroupOffsets *)

Lemma checkErrors_Some_inv entries r :
  checkErrors entries = Some r →
  ∃ p code, (p, code) ∈ entries ∧ code ≠ ErrNoError ∧
            r = Some (withStack (KError code) "failed to commit offset, partition=%d"
                        [AInt p]).
Proof.
  induction entries as [|[p code] entries IH]; simpl; [done|].
  case_bool_decide as Hc.
  - intros [= <-]. exists p, code. split; [left|done].
  - intros (p' & code' & ? & ?)%IH. exists p', code'. split; [by right|done].
Qed.

(** X11. Once the coordinator has answered, [SetGroupOffsets] returns nil
    exactly when [res.Errors[topic]] holds no code other than
    [ErrNoError], whatever the answer holds for other topics; and an error
    that it returns is that of a partition of [res.Errors[topic]] whose
    code is not [ErrNoError].  The state of the coordinator is the one
    that the commit left in both cases. *)
Theorem SetGroupOffsets_outcome {S} (w : World S) (seed : list nat) (st : S) (a : T)
    (group topic : string) (records : list PartitionOffset) a1 kafkaClt coordinator st' res :
  lazyKafkaClt w a = (a1, ok kafkaClt) →
  Coordinator kafkaClt group = ok coordinator →
  CommitOffset w coordinator st (offsetCommitRequest group topic records) = (st', ok res) →
  (SetGroupOffsets w seed st a group topic records = (a1, st', None) ∧
   ∀ p code, default ∅ (OffsetCommitResponse.Errors res !! topic) !! p = Some code →
             code = ErrNoError) ∨
  (∃ p code,
     default ∅ (OffsetCommitResponse.Errors res !! topic) !! p = Some code ∧
     code ≠ ErrNoError ∧
     SetGroupOffsets w seed st a group topic records
     = (a1, st', Some (withStack (KError code) "failed to commit offset, partition=%d"
                         [AInt p]))).
Proof.
  intros Hclt Hcoord Hcommit. unfold SetGroupOffsets. rewrite Hclt, Hcoord, Hcommit.
  destruct (checkErrors _) as [r|] eqn:Hcheck.
  - right. apply checkErrors_Some_inv in Hcheck as (p & code & Hin & Hcode & ->).
    exists p, code. split_and!; [|done..]. by apply elem_of_range in Hin.
  - left. split; [done|]. intros p code Hp. apply checkErrors_None in Hcheck.
    rewrite Forall_forall in Hcheck. apply (Hcheck (p, code)). by apply elem_of_range.
Qed.

(** X11, with a coordinator that reports [{0: 0, 1: 3, 2: 12}]: whatever
    the order of the range, the error is that of partition 1 or of
    partition 2. *)
Lemma SetGroupOffsets_outcome_witness :
  (SetGroupOffsets Scenario.world_rejecting [1%nat] [] Scenario.admin "g1" "orders"
     [Scenario.record 1 42 "chk1"] = (Scenario.admin_kafka, [], None) ∧
   ∀ p code,
     default ∅ (OffsetCommitResponse.Errors Scenario.rejection !! "orders") !! p = Some code →
     code = ErrNoError) ∨
  (∃ p code,
     default ∅ (OffsetCommitResponse.Errors Scenario.rejection !! "orders") !! p = Some code ∧
     code ≠ ErrNoError ∧
     SetGroupOffsets Scenario.world_rejecting [1%nat] [] Scenario.admin "g1" "orders"
       [Scenario.record 1 42 "chk1"]
     = (Scenario.admin_kafka, [],
        Some (withStack (KError code) "failed to commit offset, partition=%d" [AInt p]))).
Proof.
  apply (SetGroupOffsets_outcome Scenario.world_rejecting [1%nat] [] Scenario.admin
           "g1" "orders" [Scenario.record 1 42 "chk1"] Scenario.admin_kafka
           Scenario.client 3%nat [] Scenario.rejection eq_refl eq_refl eq_refl).
Defined.

(** ** The content of the map of GetTopicConsumers *)

Section Ownership.

Lemma owns_cons zkConn path name names client p :
  owns zkConn path (name :: names) client p ↔
  (partitionID name = Some p ∧ ZK.Get zkConn (path ++ "/" ++ name) = ok client) ∨
  owns zkConn path names client p.
Proof.
  unfold owns. split.
  - intros (n & [->|Hin]%elem_of_cons & ? & ?); [by left|]. right. by exists n.
  - intros [[? ?]|(n & ? & ? & ?)].
    + exists name. split; [left|done].
    + exists n. split; [by right|done].
Qed.

Lemma owners_member zkConn path names consumers consumers' :
  owners zkConn path names consumers = inl consumers' →
  ∀ client p,
    (∃ l, consumers' !! client = Some l ∧ p ∈ l) ↔
    (∃ l, consumers !! client = Some l ∧ p ∈ l) ∨ owns zkConn path names client p.
Proof.
  revert consumers. induction names as [|name names IH]; intros consumers Ho client p;
    simpl in Ho.
  - injection Ho as <-. split; [by left|]. intros [?|(n & ?%elem_of_nil & _)]; done.
  - rewrite owns_cons. unfold partitionID at 1.
    destruct (Atoi name) as [v|] eqn:Hname; [|done].
    destruct (ZK.Get zkConn (path ++ "/" ++ name)) as [clientID|] eqn:Hget; [|done].
    rewrite (IH _ Ho).
    assert ((∃ l, <[clientID := (default [] (consumers !! clientID) ++ [int32 v])%list]>
                    consumers !! client = Some l ∧ p ∈ l) ↔
            (∃ l, consumers !! client = Some l ∧ p ∈ l) ∨
            (Some (int32 v) = Some p ∧ ok clientID = ok client)) as ->; [|tauto].
    rewrite lookup_insert. case_decide as Hc.
    + subst client. split.
      * intros (l & [= <-] & [Hin| ->%list_elem_of_singleton]%elem_of_app); [|by right].
        left. destruct (consumers !! clientID) as [old|]; [by exists old|].
        by apply elem_of_nil in Hin.
      * intros [(l & Hl & Hin)|[[= <-] _]]; eexists; (split; [done|]);
          apply elem_of_app; [left; by rewrite Hl|right; left].
    + split; [by left|]. intros [?|[_ [= ?]]]; done.
Qed.

Lemma partitionCount_append (m : gmap string (list Z)) client x :
  partitionCount (<[client := (default [] (m !! client) ++ [x])%list]> m)
  = Datatypes.S (partitionCount m).
Proof.
  unfold partitionCount. destruct (m !! client) as [old|] eqn:Hold; simpl.
  - rewrite <- insert_delete_eq.
    rewrite map_to_list_insert by apply lookup_delete_eq.
    rewrite <- (map_to_list_delete m client old Hold). simpl.
    rewrite length_app. simpl. lia.
  - by rewrite map_to_list_insert.
Qed.

Lemma partitionCount_sort (m : gmap string (list Z)) :
  partitionCount (sort_int32 <$> m) = partitionCount m.
Proof.
  unfold partitionCount. rewrite map_to_list_fmap.
  induction (map_to_list m) as [|[k l] kvs IH]; [done|].
  rewrite fmap_cons. cbn [sum_list_with]. rewrite IH. simpl.
  by rewrite (Permutation_length (sort_int32_Permutation l)).
Qed.

Lemma owners_count zkConn path names consumers consumers' :
  owners zkConn path names consumers = inl consumers' →
  partitionCount consumers' = (partitionCount consumers + length names)%nat.
Proof.
  revert consumers. induction names as [|name names IH]; intros consumers Ho; simpl in Ho.
  - injection Ho as <-. simpl. lia.
  - destruct (Atoi name) as [v|]; [|done].
    destruct (ZK.Get zkConn _) as [clientID|]; [|done].
    rewrite (IH _ Ho), partitionCount_append. simpl. lia.
Qed.

(** The first node that cannot be read decides the error. *)
Lemma owners_first_failure zkConn path pre name post consumers :
  Forall (λ n, is_Some (partitionID n) ∧ ∃ c, ZK.Get zkConn (path ++ "/" ++ n) = ok c) pre →
  owners zkConn path (pre ++ name :: post) consumers
  = inr (None,
         match Atoi name with
         | fail e => Some (withStack e "invalid partition id, %s" [AStr name])
         | ok _ =>
             match ZK.Get zkConn (path ++ "/" ++ name) with
             | fail e => Some (withStack e "failed to fetch partition owner" [])
             | ok _ => None
             end
         end) ∨
  (is_Some (partitionID name) ∧ ∃ c, ZK.Get zkConn (path ++ "/" ++ name) = ok c).
Proof.
  intros Hpre. revert consumers.
  induction Hpre as [|n pre [[v Hv] [c Hc]] _ IH]; intros consumers; simpl.
  - unfold partitionID. destruct (Atoi name) as [v|e]; [|by left].
    destruct (ZK.Get zkConn _) as [c|e]; [|by left]. right. eauto.
  - unfold partitionID in Hv. destruct (Atoi n) as [v'|]; [|done]. rewrite Hc. apply IH.
Qed.

End Ownership.

(** X13. In a map that [GetTopicConsumers] returns, a client lists a
    partition exactly when some partition node stands for that partition
    and holds the id of the client. *)
Theorem GetTopicConsumers_owners {S} (w : World S) (a : T) (group topic : string)
    a' m e :
  GetTopicConsumers w a group topic = (a', (Some m, e)) →
  ∃ zkConn names,
    lazyZKConn w a = (a', ok zkConn) ∧
    ZK.Children zkConn (ownersPath a' group topic) = ok names ∧
    ∀ client p,
      (∃ ps, m !! client = Some ps ∧ p ∈ ps) ↔
      owns zkConn (ownersPath a' group topic) names client p.
Proof.
  intros (zkConn & names & consumers & Hconn & Hnames & Ho & -> & _)%GetTopicConsumers_Some.
  exists zkConn, names. split_and!; [done..|]. intros client p.
  pose proof (owners_member _ _ _ _ _ Ho client p) as Hm. split.
  - intros (ps & Hps & Hin). rewrite lookup_fmap in Hps.
    destruct (consumers !! client) as [l|] eqn:Hl; [|done]. injection Hps as <-.
    destruct (proj1 Hm) as [(l0 & Hl0 & _)|Howns]; [|by rewrite lookup_empty in Hl0|done].
    exists l. split; [done|]. by rewrite <- (sort_int32_Permutation l).
  - intros Howns. destruct (proj2 Hm (or_intror Howns)) as (l & Hl & Hin).
    exists (sort_int32 l). rewrite lookup_fmap, Hl. split; [done|].
    by rewrite sort_int32_Permutation.
Qed.

(** X13, on the tree of the scenario. *)
Lemma GetTopicConsumers_owners_witness :
  ∃ zkConn names,
    lazyZKConn Scenario.world Scenario.admin
    = (Scenario.admin_zk (Scenario.conn Scenario.tree), ok zkConn) ∧
    ZK.Children zkConn
      (ownersPath (Scenario.admin_zk (Scenario.conn Scenario.tree)) "g1" "orders")
    = ok names ∧
    ∀ client p,
      (∃ ps, ({[ "clientA" := [0; 1]; "clientB" := [2] ]} : gmap string (list Z)) !! client
             = Some ps ∧ p ∈ ps) ↔
      owns zkConn (ownersPath (Scenario.admin_zk (Scenario.conn Scenario.tree)) "g1" "orders")
        names client p.
Proof.
  apply (GetTopicConsumers_owners Scenario.world Scenario.admin "g1" "orders" _ _ None).
  vm_compute. reflexivity.
Defined.

(** X14. A map that [GetTopicConsumers] returns lists as many partitions,
    all clients together, as the ownership node has children: no node is
    dropped and none is listed twice. *)
Theorem GetTopicConsumers_count {S} (w : World S) (a : T) (group topic : string)
    a' m e :
  GetTopicConsumers w a group topic = (a', (Some m, e)) →
  ∃ zkConn names,
    lazyZKConn w a = (a', ok zkConn) ∧
    ZK.Children zkConn (ownersPath a' group topic) = ok names ∧
    partitionCount m = length names.
Proof.
  intros (zkConn & names & consumers & Hconn & Hnames & Ho & -> & _)%GetTopicConsumers_Some.
  exists zkConn, names. split_and!; [done..|].
  rewrite partitionCount_sort, (owners_count _ _ _ _ _ Ho). done.
Qed.

(** X14, on the tree of the scenario: three nodes, three partitions. *)
Lemma GetTopicConsumers_count_witness :
  ∃ zkConn names,
    lazyZKConn Scenario.world Scenario.admin
    = (Scenario.admin_zk (Scenario.conn Scenario.tree), ok zkConn) ∧
    ZK.Children zkConn
      (ownersPath (Scenario.admin_zk (Scenario.conn Scenario.tree)) "g1" "orders")
    = ok names ∧
    partitionCount {[ "clientA" := [0; 1]; "clientB" := [2] ]} = length names.
Proof.
  apply (GetTopicConsumers_count Scenario.world Scenario.admin "g1" "orders" _ _ None).
  vm_compute. reflexivity.
Defined.

(** X15. [GetTopicConsumers] stops at the first partition node that it
    cannot read: when the name of that node is no number it returns the
    error of the conversion wrapped with the name, and when the node
    cannot be fetched, be it because it is gone, it returns the error of
    the tree store wrapped as a failure to fetch the owner, not the error
    it has for a missing group or topic. *)
Theorem GetTopicConsumers_first_failure {S} (w : World S) (a : T) (group topic : string)
    a1 zkConn pre name post :
  lazyZKConn w a = (a1, ok zkConn) →
  ZK.Children zkConn (ownersPath a1 group topic) = ok (pre ++ name :: post)%list →
  Forall (λ n, is_Some (partitionID n) ∧
               ∃ c, ZK.Get zkConn (ownersPath a1 group topic ++ "/" ++ n) = ok c) pre →
  (∀ e, Atoi name = fail e →
        GetTopicConsumers w a group topic
        = (a1, (None, Some (withStack e "invalid partition id, %s" [AStr name])))) ∧
  (∀ v e, Atoi name = ok v →
          ZK.Get zkConn (ownersPath a1 group topic ++ "/" ++ name) = fail e →
          GetTopicConsumers w a group topic
          = (a1, (None, Some (withStack e "failed to fetch partition owner" [])))).
Proof.
  intros Hconn Hnames Hpre. unfold GetTopicConsumers.
  rewrite Hconn. fold (ownersPath a1 group topic). rewrite Hnames.
  destruct (owners_first_failure zkConn (ownersPath a1 group topic) pre name post ∅ Hpre)
    as [->|[[p Hp] [c Hc]]].
  - split.
    + by intros e ->.
    + intros v e -> Hget. by rewrite Hget.
  - unfold partitionID in Hp. split.
    + intros e He. by rewrite He in Hp.
    + intros v e _ Hget. by rewrite Hget in Hc.
Qed.

(** X15, on a tree whose ownership node has the child [abc] after the
    child [0], and on one whose child [7] is gone. *)
Lemma GetTopicConsumers_first_failure_witness :
  GetTopicConsumers (Scenario.world_over (Scenario.conn Scenario.tree_stray))
    Scenario.admin "g1" "orders"
  = (Scenario.admin_zk (Scenario.conn Scenario.tree_stray),
     (None, Some (withStack (NumError "Atoi" "abc" ErrSyntax)
                    "invalid partition id, %s" [AStr "abc"])))
  ∧ GetTopicConsumers (Scenario.world_over (Scenario.conn Scenario.tree_gone))
      Scenario.admin "g1" "orders"
    = (Scenario.admin_zk (Scenario.conn Scenario.tree_gone),
       (None, Some (withStack ZK.ErrNoNode "failed to fetch partition owner" []))).
Proof.
  split.
  - destruct (GetTopicConsumers_first_failure
                (Scenario.world_over (Scenario.conn Scenario.tree_stray))
                Scenario.admin "g1" "orders"
                (Scenario.admin_zk (Scenario.conn Scenario.tree_stray))
                (Scenario.conn Scenario.tree_stray) ["0"] "abc" []) as [Hname _].
    + reflexivity.
    + vm_compute. reflexivity.
    + constructor; [|constructor]. split; [by eexists|]. exists "clientA".
      vm_compute. reflexivity.
    + apply Hname. reflexivity.
  - destruct (GetTopicConsumers_first_failure
                (Scenario.world_over (Scenario.conn Scenario.tree_gone))
                Scenario.admin "g1" "orders"
                (Scenario.admin_zk (Scenario.conn Scenario.tree_gone))
                (Scenario.conn Scenario.tree_gone) ["0"] "7" []) as [_ Hget].
    + reflexivity.
    + vm_compute. reflexivity.
    + constructor; [|constructor]. split; [by eexists|]. exists "clientA".
      vm_compute. reflexivity.
    + apply (Hget 7); [reflexivity|vm_compute; reflexivity].
Defined.

(** X16. For an ownership node without children [GetTopicConsumers]
    returns an empty map, not nil, and no error. *)
Theorem GetTopicConsumers_no_child {S} (w : World S) (a : T) (group topic : string)
    a1 zkConn :
  lazyZKConn w a = (a1, ok zkConn) →
  ZK.Children zkConn (ownersPath a1 group topic) = ok [] →
  GetTopicConsumers w a group topic = (a1, (Some ∅, None)).
Proof.
  intros Hconn Hnames. unfold GetTopicConsumers.
  rewrite Hconn. fold (ownersPath a1 group topic). rewrite Hnames. simpl.
  by rewrite fmap_empty.
Qed.

(** X16, for the group [g0], whose ownership node has no child. *)
Lemma GetTopicConsumers_no_child_witness :
  GetTopicConsumers (Scenario.world_over (Scenario.conn Scenario.tree_idle))
    Scenario.admin "g0" "orders"
  = (Scenario.admin_zk (Scenario.conn Scenario.tree_idle), (Some ∅, None)).
Proof.
  apply (GetTopicConsumers_no_child (Scenario.world_over (Scenario.conn Scenario.tree_idle))
           Scenario.admin "g0" "orders" _ (Scenario.conn Scenario.tree_idle)).
  - reflexivity.
  - vm_compute. reflexivity.
Defined.

Lemma int32_range (z : Z) : -2147483648 ≤ int32 z ≤ 2147483647.
Proof.
  unfold int32. pose proof (Z.mod_pos_bound (z + 2 ^ 31) (2 ^ 32) eq_refl). lia.
Qed.

(** X17. Every partition id of a map that [GetTopicConsumers] returns is
    within the range of [int32]: it is the low 32 bits of the number that
    the name of its node spells. *)
Theorem GetTopicConsumers_int32 {S} (w : World S) (a : T) (group topic : string)
    a' m e client (ps : list Z) p :
  GetTopicConsumers w a group topic = (a', (Some m, e)) →
  m !! client = Some ps → p ∈ ps →
  -2147483648 ≤ p ≤ 2147483647 ∧
  ∃ zkConn names name v,
    lazyZKConn w a = (a', ok zkConn) ∧
    ZK.Children zkConn (ownersPath a' group topic) = ok names ∧
    name ∈ names ∧ Atoi name = ok v ∧ p = int32 v.
Proof.
  intros Hget Hm Hin.
  pose proof Hget
    as (zkConn & names & consumers & Hconn & Hnames & Ho & -> & _)%GetTopicConsumers_Some.
  rewrite lookup_fmap in Hm. destruct (consumers !! client) as [l|] eqn:Hl; [|done].
  injection Hm as <-. rewrite sort_int32_Permutation in Hin.
  destruct (proj1 (owners_member _ _ _ _ _ Ho client p))
    as [(l0 & Hl0 & _)|(name & Hname & Hid & _)]; [by exists l|by rewrite lookup_empty in Hl0|].
  unfold partitionID in Hid. destruct (Atoi name) as [v|] eqn:Hv; [|done].
  injection Hid as <-. split; [apply int32_range|].
  by exists zkConn, names, name, v.
Qed.

(** X17, on the tree of the scenario. *)
Lemma GetTopicConsumers_int32_witness :
  -2147483648 ≤ 1 ≤ 2147483647 ∧
  ∃ zkConn names name v,
    lazyZKConn Scenario.world Scenario.admin
    = (Scenario.admin_zk (Scenario.conn Scenario.tree), ok zkConn) ∧
    ZK.Children zkConn
      (ownersPath (Scenario.admin_zk (Scenario.conn Scenario.tree)) "g1" "orders")
    = ok names ∧
    name ∈ names ∧ Atoi name = ok v ∧ 1 = int32 v.
Proof.
  apply (GetTopicConsumers_int32 Scenario.world Scenario.admin "g1" "orders" _
           {[ "clientA" := [0; 1]; "clientB" := [2] ]} None "clientA" [0; 1]).
  - vm_compute. reflexivity.
  - reflexivity.
  - right. left.
Defined.

(** ** The content of the map of GetAllTopicConsumers *)

Section Groups.

Context {S : Type} (w : World S).

Lemma lazyZKConn_ok a a1 c : lazyZKConn w a = (a1, ok c) → zkConn a1 = Some c.
Proof.
  unfold lazyZKConn. destruct (zkConn a) as [c'|] eqn:Hc.
  - by intros [= <- <-].
  - destruct (Connect w _); [|done]. by intros [= <- <-].
Qed.

Lemma lazyZKConn_connected a c : zkConn a = Some c → lazyZKConn w a = (a, ok c).
Proof. unfold lazyZKConn. by intros ->. Qed.

Lemma GetTopicConsumers_connected a c group topic :
  zkConn a = Some c → (GetTopicConsumers w a group topic).1 = a.
Proof. intros Hc. unfold GetTopicConsumers. by rewrite (lazyZKConn_connected a c Hc). Qed.

Lemma scanGroups_snoc a topic groups group consumers :
  scanGroups w a topic (groups ++ [group]) consumers
  = match scanGroups w a topic groups consumers with
    | (a', inl consumers') => scanGroups w a' topic [group] consumers'
    | (a', inr r) => (a', inr r)
    end.
Proof.
  revert a consumers. induction groups as [|g groups IH]; intros a consumers.
  - done.
  - cbn [app scanGroups].
    destruct (GetTopicConsumers w a g topic) as [a1 [groupConsumers [e|]]].
    + destruct (assertIface (Some e) ErrInvalidParam); [apply IH|done].
    + apply IH.
Qed.

Lemma scanGroups_content a c topic groups :
  zkConn a = Some c →
  ∃ consumers,
    scanGroups w a topic groups ∅ = (a, inl consumers) ∧
    ∀ group m,
      consumers !! group = Some m ↔
      group ∈ groups ∧ m ≠ ∅ ∧ GetTopicConsumers w a group topic = (a, (Some m, None)).
Proof.
  intros Hc. induction groups as [|g groups (consumers & Hscan & Hcontent)] using rev_ind.
  - exists ∅. split; [done|]. intros group m. rewrite lookup_empty.
    split; [done|]. by intros [?%elem_of_nil _].
  - rewrite scanGroups_snoc, Hscan. cbn [scanGroups].
    pose proof (GetTopicConsumers_connected a c g topic Hc) as Hstate.
    destruct (GetTopicConsumers w a g topic) as [a1 [groupConsumers err]] eqn:Hget.
    simpl in Hstate. subst a1.
    assert (∀ group m,
              group ∈ (groups ++ [g])%list ∧ m ≠ ∅ ∧
              GetTopicConsumers w a group topic = (a, (Some m, None)) ↔
              (group ∈ groups ∧ m ≠ ∅ ∧
               GetTopicConsumers w a group topic = (a, (Some m, None))) ∨
              (group = g ∧ m ≠ ∅ ∧ (a, (groupConsumers, err)) = (a, (Some m, None))))
      as Hsplit.
    { intros group m. rewrite elem_of_app, list_elem_of_singleton. split.
      - intros [[?| ->] [? Hg]]; [by left|]. right. rewrite Hget in Hg. done.
      - intros [(? & ? & ?)|(-> & ? & Hg)]; [tauto|]. rewrite Hget. tauto. }
    destruct err as [e|].
    + rewrite assertIface_ErrInvalidParam. exists consumers. split; [done|].
      intros group m. rewrite Hsplit, Hcontent. split; [by left|].
      intros [?|(_ & _ & [=])]. done.
    + case_bool_decide as Hlen.
      * destruct groupConsumers as [m0|]; [|simpl in Hlen; lia]. simpl in Hlen.
        assert (m0 ≠ ∅) as Hne by (apply map_size_non_empty_iff; lia).
        exists (<[g := m0]> consumers). split; [done|]. intros group m.
        rewrite Hsplit, lookup_insert. case_decide as Hg.
        -- subst group. split.
           ++ intros [= <-]. by right.
           ++ intros [(_ & _ & Hgm)|(_ & _ & [= <-])]; [|done].
              rewrite Hget in Hgm. by injection Hgm as <-.
        -- rewrite Hcontent. split; [by left|]. intros [?|(-> & _)]; done.
      * exists consumers. split; [done|]. intros group m.
        rewrite Hsplit, Hcontent. split; [by left|].
        intros [?|(_ & Hne & [= ->])]; [done|]. exfalso. apply Hlen. simpl.
        apply map_size_non_empty_iff in Hne. lia.
Qed.

End Groups.

(** X18. A map that [GetAllTopicConsumers] returns holds a group exactly
    when the group is listed and its scan returns a map that is not
    empty, and it holds that map for the group: no group is mapped to an
    empty map. *)
Theorem GetAllTopicConsumers_content {S} (w : World S) (a : T) (topic : string)
    a' consumers e :
  GetAllTopicConsumers w a topic = (a', (Some consumers, e)) →
  ∃ kzConn groups,
    lazyZKConn w a = (a', ok kzConn) ∧
    ZK.Children kzConn (ZooKeeper_Chroot (cfg a') ++ "/consumers") = ok groups ∧
    ∀ group m,
      consumers !! group = Some m ↔
      group ∈ groups ∧ m ≠ ∅ ∧
      GetTopicConsumers w a' group topic = (a', (Some m, None)).
Proof.
  unfold GetAllTopicConsumers. intros Hget.
  destruct (lazyZKConn w a) as [a1 [kzConn|e1]] eqn:Hconn; [|done].
  destruct (ZK.Children kzConn _) as [groups|e2] eqn:Hgroups; [|done].
  destruct (scanGroups_content w a1 kzConn topic groups (lazyZKConn_ok w _ _ _ Hconn))
    as (consumers' & Hscan & Hcontent).
  rewrite Hscan in Hget. injection Hget as <- <- <-.
  by exists kzConn, groups.
Qed.

(** X18, on a tree with three groups: [g0] owns nothing, [g1] owns the
    partitions of [orders], [g2] has no ownership node. *)
Lemma GetAllTopicConsumers_content_witness :
  ∃ kzConn groups,
    lazyZKConn (Scenario.world_over (Scenario.conn Scenario.tree_idle)) Scenario.admin
    = (Scenario.admin_zk (Scenario.conn Scenario.tree_idle), ok kzConn) ∧
    ZK.Children kzConn
      (ZooKeeper_Chroot (cfg (Scenario.admin_zk (Scenario.conn Scenario.tree_idle)))
       ++ "/consumers") = ok groups ∧
    ∀ group m,
      ({[ "g1" := {[ "clientA" := [0; 1]; "clientB" := [2] ]} ]}
       : gmap string (gmap string (list Z))) !! group = Some m ↔
      group ∈ groups ∧ m ≠ ∅ ∧
      GetTopicConsumers (Scenario.world_over (Scenario.conn Scenario.tree_idle))
        (Scenario.admin_zk (Scenario.conn Scenario.tree_idle)) group "orders"
      = (Scenario.admin_zk (Scenario.conn Scenario.tree_idle), (Some m, None)).
Proof.
  apply (GetAllTopicConsumers_content (Scenario.world_over (Scenario.conn Scenario.tree_idle))
           Scenario.admin "orders" _ _ None).
  vm_compute. reflexivity.
Defined.

(** ** The connections *)

(** X19. The two lazy accessors dial once: when dialing fails they return
    the wrapped error and leave the admin as it was, so that the next call
    dials again; when a connection is there, or dialing succeeds, they
    return the connection and every later call returns the same one
    without dialing, whatever dialing would then yield. *)
Theorem lazy_connections {S} (w w' : World S) (a : T) :
  (∀ a1 e, lazyKafkaClt w a = (a1, fail e) →
     a1 = a ∧ kafkaClt a = None ∧
     ∃ cause, NewClient w (Kafka_SeedPeers (cfg a)) = fail cause ∧
              e = withStack cause "failed to create sarama.Client" []) ∧
  (∀ a1 c, lazyKafkaClt w a = (a1, ok c) →
     lazyKafkaClt w' a1 = (a1, ok c) ∧ cfg a1 = cfg a ∧ zkConn a1 = zkConn a) ∧
  (∀ a1 e, lazyZKConn w a = (a1, fail e) →
     a1 = a ∧ zkConn a = None ∧
     ∃ cause, Connect w (ZooKeeper_SeedPeers (cfg a)) = fail cause ∧
              e = withStack cause "failed to create zk.Conn" []) ∧
  (∀ a1 c, lazyZKConn w a = (a1, ok c) →
     lazyZKConn w' a1 = (a1, ok c) ∧ cfg a1 = cfg a ∧ kafkaClt a1 = kafkaClt a).
Proof.
  unfold lazyKafkaClt, lazyZKConn. split_and!.
  - intros a1 e. destruct (kafkaClt a); [done|].
    destruct (NewClient w _) as [|cause]; [done|]. intros [= <- <-]. eauto.
  - intros a1 c. destruct (kafkaClt a) eqn:Hc.
    + intros [= <- <-]. by rewrite Hc.
    + destruct (NewClient w _); [|done]. by intros [= <- <-].
  - intros a1 e. destruct (zkConn a); [done|].
    destruct (Connect w _) as [|cause]; [done|]. intros [= <- <-]. eauto.
  - intros a1 c. destruct (zkConn a) eqn:Hc.
    + intros [= <- <-]. by rewrite Hc.
    + destruct (Connect w _); [|done]. by intros [= <- <-].
Qed.

Section Untouched.

Context {S : Type} (w : World S).

Lemma lazyKafkaClt_keeps a :
  cfg (lazyKafkaClt w a).1 = cfg a ∧ zkConn (lazyKafkaClt w a).1 = zkConn a.
Proof.
  unfold lazyKafkaClt. destruct (kafkaClt a); [done|]. by destruct (NewClient w _).
Qed.

Lemma lazyZKConn_keeps a :
  cfg (lazyZKConn w a).1 = cfg a ∧ kafkaClt (lazyZKConn w a).1 = kafkaClt a.
Proof.
  unfold lazyZKConn. destruct (zkConn a); [done|]. by destruct (Connect w _).
Qed.

Lemma GetTopicConsumers_keeps a group topic :
  cfg (GetTopicConsumers w a group topic).1 = cfg a ∧
  kafkaClt (GetTopicConsumers w a group topic).1 = kafkaClt a.
Proof.
  unfold GetTopicConsumers. destruct (lazyZKConn_keeps a) as [Hk1 Hk2].
  by destruct (lazyZKConn w a) as [a1 [c|e]].
Qed.

Lemma scanGroups_keeps a topic groups consumers :
  cfg (scanGroups w a topic groups consumers).1 = cfg a ∧
  kafkaClt (scanGroups w a topic groups consumers).1 = kafkaClt a.
Proof.
  revert a consumers. induction groups as [|g groups IH]; intros a consumers; [done|].
  cbn [scanGroups]. pose proof (GetTopicConsumers_keeps a g topic) as [Hc Hk].
  destruct (GetTopicConsumers w a g topic) as [a1 [groupConsumers [e|]]]; simpl in Hc, Hk.
  - rewrite assertIface_ErrInvalidParam. destruct (IH a1 consumers) as [-> ->]. done.
  - destruct (IH a1 (if bool_decide (0 < len groupConsumers)%nat
                     then <[g := default ∅ groupConsumers]> consumers
                     else consumers)) as [-> ->].
    done.
Qed.

End Untouched.

(** X20. No operation changes the configuration; the two operations on
    offsets never touch the connection to the tree store, and the two
    scans of owners never touch the cluster client. *)
Theorem operations_keep_connections {S} (w : World S) (seed sched : list nat) (st : S)
    (a : T) (group topic : string) (records : list PartitionOffset) :
  (cfg (GetGroupOffsets w seed sched st a group topic).1 = cfg a ∧
   zkConn (GetGroupOffsets w seed sched st a group topic).1 = zkConn a) ∧
  (cfg (SetGroupOffsets w seed st a group topic records).1.1 = cfg a ∧
   zkConn (SetGroupOffsets w seed st a group topic records).1.1 = zkConn a) ∧
  (cfg (GetTopicConsumers w a group topic).1 = cfg a ∧
   kafkaClt (GetTopicConsumers w a group topic).1 = kafkaClt a) ∧
  (cfg (GetAllTopicConsumers w a topic).1 = cfg a ∧
   kafkaClt (GetAllTopicConsumers w a topic).1 = kafkaClt a).
Proof.
  split_and!.
  1,2: unfold GetGroupOffsets; destruct (lazyKafkaClt_keeps w a) as [Hk1 Hk2];
       by destruct (lazyKafkaClt w a) as [a1 [c|e]].
  1,2: unfold SetGroupOffsets; destruct (lazyKafkaClt_keeps w a) as [Hk1 Hk2];
       destruct (lazyKafkaClt w a) as [a1 [c|e]]; [|done];
       destruct (Coordinator c group) as [coordinator|e]; [|done];
       destruct (CommitOffset w coordinator st _) as [st' [res|e]]; [|done];
       by destruct (checkErrors _).
  1,2: apply GetTopicConsumers_keeps.
  1,2: unfold GetAllTopicConsumers; destruct (lazyZKConn_keeps w a) as [Hk1 Hk2];
       destruct (lazyZKConn w a) as [a1 [c|e]]; [|done];
       destruct (ZK.Children c _) as [groups|e]; [|done];
       destruct (scanGroups_keeps w a1 topic groups ∅) as [Hs1 Hs2];
       destruct (scanGroups w a1 topic groups ∅) as [a2 [consumers|r]];
       simpl in *; congruence.
Qed.

(** X19, for a fresh admin: offline, dialing fails and the admin stays as
    it was; once connected, the client is returned even offline. *)
Lemma lazy_connections_witness :
  (Scenario.admin = Scenario.admin ∧ kafkaClt Scenario.admin = None ∧
   ∃ cause, NewClient Scenario.world_offline (Kafka_SeedPeers (cfg Scenario.admin))
            = fail cause ∧
            withStack (errorString "dial tcp: connection refused")
              "failed to create sarama.Client" []
            = withStack cause "failed to create sarama.Client" []) ∧
  (lazyKafkaClt Scenario.world_offline Scenario.admin_kafka
   = (Scenario.admin_kafka, ok Scenario.client) ∧
   cfg Scenario.admin_kafka = cfg Scenario.admin ∧
   zkConn Scenario.admin_kafka = zkConn Scenario.admin).
Proof.
  split.
  - destruct (lazy_connections Scenario.world_offline Scenario.world Scenario.admin)
      as (Hfail & _).
    apply (Hfail Scenario.admin). reflexivity.
  - destruct (lazy_connections Scenario.world Scenario.world_offline Scenario.admin)
      as (_ & Hok & _).
    apply (Hok Scenario.admin_kafka Scenario.client). reflexivity.
Defined.

(** ** Stop *)

Lemma lazyKafkaClt_ok {S} (w : World S) a a1 c :
  lazyKafkaClt w a = (a1, ok c) → kafkaClt a1 = Some c ∧ zkConn a1 = zkConn a.
Proof.
  unfold lazyKafkaClt. destruct (kafkaClt a) as [c'|] eqn:Hc.
  - by intros [= <- <-].
  - destruct (NewClient w _); [|done]. by intros [= <- <-].
Qed.

Lemma lazyZKConn_ok' {S} (w : World S) a a1 c :
  lazyZKConn w a = (a1, ok c) → zkConn a1 = Some c ∧ kafkaClt a1 = kafkaClt a.
Proof.
  unfold lazyZKConn. destruct (zkConn a) as [c'|] eqn:Hc.
  - by intros [= <- <-].
  - destruct (Connect w _); [|done]. by intros [= <- <-].
Qed.

(** X21. [Stop] closes what the operations have opened and nothing else:
    nothing for a fresh admin; after a [GetGroupOffsets] that returns an
    array, the cluster client, and the connection to the tree store only
    if there was one before; after a [GetTopicConsumers] that returns a
    map, the connection to the tree store, and before it the cluster
    client only if there was one. *)
Theorem Stop_closes_what_was_opened {S} (w : World S) (seed sched : list nat) (st : S)
    (c : Proxy) (a : T) (group topic : string) :
  Stop (Spawn c) = [] ∧
  (∀ a' offs e, GetGroupOffsets w seed sched st a group topic = (a', (Some offs, e)) →
     Stop a' = CloseKafkaClt :: match zkConn a with
                                | Some _ => [CloseZkConn]
                                | None => []
                                end) ∧
  (∀ a' m e, GetTopicConsumers w a group topic = (a', (Some m, e)) →
     Stop a' = (match kafkaClt a with
                | Some _ => [CloseKafkaClt]
                | None => []
                end ++ [CloseZkConn])%list).
Proof.
  split_and!; [done| |].
  - intros a' offs e Hget.
    apply GetGroupOffsets_Some in Hget as (clt & _ & _ & _ & Hclt & _).
    apply lazyKafkaClt_ok in Hclt as [Hk Hzk]. unfold Stop. by rewrite Hk, Hzk.
  - intros a' m e Hget.
    apply GetTopicConsumers_Some in Hget as (zk & _ & _ & Hconn & _).
    apply lazyZKConn_ok' in Hconn as [Hzk Hk]. unfold Stop. by rewrite Hk, Hzk.
Qed.

(** X21, on the cluster of the scenario: after the fetch of the offsets
    of a fresh admin, [Stop] closes the cluster client alone. *)
Lemma Stop_closes_what_was_opened_witness :
  Stop Scenario.admin_kafka = [CloseKafkaClt].
Proof.
  destruct (Stop_closes_what_was_opened Scenario.world [] [] [] (cfg Scenario.admin)
              Scenario.admin "g1" "orders") as (_ & Hget & _).
  apply (Hget Scenario.admin_kafka
           [ {| Partition := 0; Begin := 100; End_ := 150; Offset := -1; Metadata := "" |};
             {| Partition := 1; Begin := 20; End_ := 40; Offset := -1; Metadata := "" |};
             {| Partition := 2; Begin := 300; End_ := 350; Offset := -1; Metadata := "" |} ]
           None).
  vm_compute. reflexivity.
Defined.

(** ** int32Slice *)

Section Int32Slice.

Lemma Swap_Permutation p i j p' : Swap p i j = Some p' → p' ≡ₚ p.
Proof.
  unfold Swap. destruct (p !! i) as [pi|] eqn:Hi; [|done].
  destruct (p !! j) as [pj|] eqn:Hj; [|done]. intros [= <-].
  pose proof (lookup_lt_Some _ _ _ Hi) as Hli. pose proof (lookup_lt_Some _ _ _ Hj) as Hlj.
  apply Permutation_inj. split; [by rewrite !length_insert|].
  exists (λ k, if decide (k = i) then j else if decide (k = j) then i else k). split.
  - intros x y. repeat case_decide; congruence.
  - intros k. destruct (decide (k = j)) as [->|Hkj].
    + rewrite list_lookup_insert_eq by (by rewrite length_insert).
      case_decide; [by subst|done].
    + rewrite list_lookup_insert_ne by done. destruct (decide (k = i)) as [->|Hki].
      * by rewrite list_lookup_insert_eq.
      * by rewrite list_lookup_insert_ne.
Qed.

Lemma swapped_Permutation l p : swapped l p → p ≡ₚ l.
Proof.
  induction 1 as [|p i j p' p'' Hswap _ IH]; [done|].
  rewrite IH. by eapply Swap_Permutation.
Qed.

Lemma Less_ordered_Sorted (p : list Z) :
  (∀ i j, (i < j < Len p)%nat → Less p j i = Some false) → Sorted Z.le p.
Proof.
  induction p as [|x p IH]; intros Hord; [constructor|]. constructor.
  - apply IH. intros i j Hij.
    specialize (Hord (Datatypes.S i) (Datatypes.S j)). unfold Len in *. simpl in Hord.
    apply Hord. lia.
  - destruct p as [|y p]; constructor.
    specialize (Hord 0%nat 1%nat). unfold Len, Less in Hord. simpl in Hord.
    assert (Some (bool_decide (y < x)) = Some false) as [= Hlt] by (apply Hord; lia).
    apply bool_decide_eq_false in Hlt. lia.
Qed.

End Int32Slice.

(** X22. [Swap] on two indices within the slice exchanges the two
    elements and leaves the others, the length and the content as a
    multiset; a second [Swap] undoes it; with an index outside the slice
    it panics. *)
Theorem Swap_exchanges (p : list Z) (i j : nat) :
  (∀ p', Swap p i j = Some p' →
     Len p' = Len p ∧ p' ≡ₚ p ∧
     p' !! i = p !! j ∧ p' !! j = p !! i ∧
     (∀ k, k ≠ i → k ≠ j → p' !! k = p !! k) ∧
     Swap p' i j = Some p) ∧
  (Swap p i j = None ↔ ¬ (i < Len p ∧ j < Len p)%nat).
Proof.
  split.
  - intros p' Hswap. pose proof (Swap_Permutation _ _ _ _ Hswap) as Hperm.
    unfold Swap in *. destruct (p !! i) as [pi|] eqn:Hi; [|done].
    destruct (p !! j) as [pj|] eqn:Hj; [|done]. injection Hswap as <-.
    pose proof (lookup_lt_Some _ _ _ Hi) as Hli.
    pose proof (lookup_lt_Some _ _ _ Hj) as Hlj.
    assert (<[j:=pi]> (<[i:=pj]> p) !! i = Some pj) as Hi'.
    { destruct (decide (j = i)) as [->|Hne].
      - rewrite list_lookup_insert_eq by (by rewrite length_insert). congruence.
      - rewrite list_lookup_insert_ne by done. by rewrite list_lookup_insert_eq. }
    assert (<[j:=pi]> (<[i:=pj]> p) !! j = Some pi) as Hj'.
    { by rewrite list_lookup_insert_eq by (by rewrite length_insert). }
    split_and!; [by unfold Len; rewrite !length_insert|done|done|done| |].
    + intros k Hki Hkj. by rewrite !list_lookup_insert_ne.
    + rewrite Hi', Hj'. f_equal. apply list_eq. intros k.
      destruct (decide (k = j)) as [->|Hkj].
      * rewrite list_lookup_insert_eq by (by rewrite !length_insert). done.
      * rewrite list_lookup_insert_ne by done. destruct (decide (k = i)) as [->|Hki].
        -- rewrite list_lookup_insert_eq by (by rewrite !length_insert). done.
        -- by rewrite !list_lookup_insert_ne.
  - unfold Swap, Len. split.
    + intros Hnone [Hi Hj].
      destruct (lookup_lt_is_Some_2 p i Hi) as [pi Hpi].
      destruct (lookup_lt_is_Some_2 p j Hj) as [pj Hpj]. by rewrite Hpi, Hpj in Hnone.
    + intros Hout. destruct (p !! i) as [pi|] eqn:Hi; [|done].
      destruct (p !! j) as [pj|] eqn:Hj; [|done]. exfalso. apply Hout.
      split; by eapply lookup_lt_Some.
Qed.

(** X22, on the slice [3, 1, 2]. *)
Lemma Swap_exchanges_witness :
  Len [2; 1; 3] = Len [3; 1; 2] ∧ [2; 1; 3] ≡ₚ [3; 1; 2] ∧
  [2; 1; 3] !! 0%nat = [3; 1; 2] !! 2%nat ∧ [2; 1; 3] !! 2%nat = [3; 1; 2] !! 0%nat ∧
  (∀ k, k ≠ 0%nat → k ≠ 2%nat → [2; 1; 3] !! k = [3; 1; 2] !! k) ∧
  Swap [2; 1; 3] 0 2 = Some [3; 1; 2].
Proof.
  destruct (Swap_exchanges [3; 1; 2] 0 2) as [Hswap _].
  apply (Hswap [2; 1; 3]). reflexivity.
Defined.

(** X23. A slice that calls of [Swap] reach from [l], and in which [Less]
    finds no element smaller than an earlier one, is [l] sorted: whatever
    calls [sort.Sort] makes through the three methods, a slice that it
    leaves in order is this one. *)
Theorem Less_ordered_sorted (l p : list Z) :
  swapped l p →
  (∀ i j, (i < j < Len p)%nat → Less p j i = Some false) →
  p = sort_int32 l.
Proof.
  intros Hs Hord. apply sort_int32_unique.
  - by apply Less_ordered_Sorted.
  - by apply swapped_Permutation.
Qed.

(** X23, on the slice [3, 1, 2]: two swaps put it in order. *)
Lemma Less_ordered_sorted_witness : [1; 2; 3] = sort_int32 [3; 1; 2].
Proof.
  apply Less_ordered_sorted.
  - apply (swapped_step [3; 1; 2] 0 1 [1; 3; 2]); [reflexivity|].
    apply (swapped_step [1; 3; 2] 1 2 [1; 2; 3]); [reflexivity|]. constructor.
  - intros i j Hij. unfold Len in Hij. simpl in Hij.
    assert ((i = 0 ∧ j = 1) ∨ (i = 0 ∧ j = 2) ∨ (i = 1 ∧ j = 2))%nat
      as [[-> ->]|[[-> ->]|[-> ->]]] by lia; reflexivity.
Defined.
